(** * posacs-module.c: POSIX environment bindings for the Emacs module API

    A shallow embedding of [posacs-module.c].  The C functions of the file
    ([string_from_lisp], [posacs_getenv], [posacs_setenv], [posacs_unsetenv],
    [bind_func], [emacs_module_init]) are written in a small state-and-failure
    monad, statement by statement.  What the file calls but does not define,
    the function table of [emacs_env] and the C library, is modelled under
    the headings [Host primitives] and [C library], after the Emacs module
    API and POSIX. *)

From Stdlib Require Import ZArith String Ascii List Lia.
From stdpp Require Import base option gmap strings.

Local Open Scope Z_scope.
Local Open Scope string_scope.

(** ** C strings *)

(** The terminating byte of a C string. *)
Definition NUL : ascii := Ascii.zero.

(** [strtrunc s]: the bytes of [s] before its first NUL byte (all of [s] when
    it has none).  This is what a C string function sees of a buffer that
    holds [s] followed by a terminator. *)
Fixpoint strtrunc (s : string) : string :=
  match s with
  | EmptyString => EmptyString
  | String c r => if decide (c = NUL) then EmptyString else String c (strtrunc r)
  end.

(** [cstr blk]: the C string that starts a memory block: the bytes before the
    first NUL.  A block without a NUL has no C string in it (a read would run
    past its end). *)
Fixpoint cstr (blk : string) : option string :=
  match blk with
  | EmptyString => None
  | String c r =>
      if decide (c = NUL) then Some EmptyString
      else match cstr r with
           | Some t => Some (String c t)
           | None => None
           end
  end.

(** [strlen] on the contents of a C string. *)
Definition strlen (s : string) : Z := Z.of_nat (String.length (strtrunc s)).

(** [zeros n]: a block of [n] bytes (the bytes of a fresh block are not
    specified by C; the model fills it with NUL). *)
Fixpoint zeros (n : nat) : string :=
  match n with
  | O => EmptyString
  | S m => String NUL (zeros m)
  end.

(** [store src dst]: the block [dst] after [src] was copied to its start. *)
Fixpoint store (src dst : string) : string :=
  match src, dst with
  | EmptyString, d => d
  | String c r, String _ d => String c (store r d)
  | String _ _, EmptyString => EmptyString
  end.

(** The first [n] bytes of [s]. *)
Fixpoint take_bytes (n : nat) (s : string) : string :=
  match n, s with
  | S m, String c r => String c (take_bytes m r)
  | _, _ => EmptyString
  end.

(** Does the string contain the byte [c]? *)
Fixpoint has_byte (c : ascii) (s : string) : bool :=
  match s with
  | EmptyString => false
  | String d r => if decide (d = c) then true else has_byte c r
  end.

(** ** Host values *)

(** The three C functions that the module hands to the host as function
    pointers. *)
Inductive module_fn := fn_getenv | fn_setenv | fn_unsetenv.

(** Lisp objects, as far as the module can meet them.  A string is kept as
    the bytes of its UTF-8 text, which may contain NUL bytes.  [Float]
    carries the bit pattern of the double. *)
Inductive Lisp_Object :=
  | Sym (name : string)
  | Int (i : Z)
  | Float (bits : Z)
  | Str (bytes : string)
  | Cons (car cdr : Lisp_Object)
  | Func (min_arity max_arity : Z) (fn : module_fn) (doc : string).

(** [emacs_value] is a handle to a Lisp object; [None] is the null handle
    that the host's functions return on failure. *)
Definition emacs_value := option Lisp_Object.

(** A C pointer to a heap block; [None] is [NULL]. *)
Definition pointer := option nat.
Definition NULL : pointer := None.

#[global] Instance module_fn_eq_dec : EqDecision module_fn.
Proof. solve_decision. Defined.

#[global] Instance Lisp_Object_eq_dec : EqDecision Lisp_Object.
Proof. solve_decision. Defined.

Definition Qnil : Lisp_Object := Sym "nil".
Definition Qt : Lisp_Object := Sym "t".

Definition is_Str (o : Lisp_Object) : bool :=
  match o with Str _ => true | _ => false end.

(** ** State *)

(** [enum emacs_funcall_exit], with what a pending exit carries. *)
Inductive funcall_exit :=
  | emacs_funcall_exit_return
  | emacs_funcall_exit_signal (symbol data : Lisp_Object)
  | emacs_funcall_exit_throw (tag value : Lisp_Object).

#[global] Instance funcall_exit_eq_dec : EqDecision funcall_exit.
Proof. solve_decision. Defined.

(** Everything the code reads or writes:
    - [pending]: the non-local exit state of the [emacs_env];
    - [env_size]: the [size] field of the [emacs_env];
    - [fcells]: the function cells of the host's symbols (the global function
      namespace);
    - [environ]: the process environment, from the names of its strings
      [name=value] to their values;
    - [heap]: the live blocks of the C heap, by address;
    - [brk]: the address the next block gets;
    - [malloc_plan]: the outcome of the coming [malloc] calls, [false] for a
      failing one; when the plan is used up, [malloc] succeeds. *)
Record state := mkState {
  pending : funcall_exit;
  env_size : Z;
  fcells : gmap string Lisp_Object;
  environ : gmap string string;
  heap : gmap nat string;
  brk : nat;
  malloc_plan : list bool
}.

Definition set_pending (x : funcall_exit) (s : state) : state :=
  mkState x (env_size s) (fcells s) (environ s) (heap s) (brk s) (malloc_plan s).
Definition set_fcells (f : gmap string Lisp_Object) (s : state) : state :=
  mkState (pending s) (env_size s) f (environ s) (heap s) (brk s) (malloc_plan s).
Definition set_environ (e : gmap string string) (s : state) : state :=
  mkState (pending s) (env_size s) (fcells s) e (heap s) (brk s) (malloc_plan s).
Definition set_heap (h : gmap nat string) (s : state) : state :=
  mkState (pending s) (env_size s) (fcells s) (environ s) h (brk s) (malloc_plan s).

(** The host gives every call of a module function (and of the init
    function) an [emacs_env] with no non-local exit pending. *)
Definition enter (s : state) : state := set_pending emacs_funcall_exit_return s.

(** ** The monad *)

(** A computation runs on a state and yields a result and the next state, or
    [None] when it is stuck: undefined behaviour of C (a read through a
    null or dangling pointer, an unterminated string) or host behaviour
    outside this model. *)
Definition M (A : Type) : Type := state -> option (A * state).

Definition pure {A} (a : A) : M A := fun s => Some (a, s).

Definition bind {A B} (m : M A) (k : A -> M B) : M B :=
  fun s => match m s with
           | Some (a, s') => k a s'
           | None => None
           end.

Definition stuck {A} : M A := fun _ => None.
Definition get_state : M state := fun s => Some (s, s).
Definition modify (f : state -> state) : M unit := fun s => Some (tt, f s).

Declare Scope cmd_scope.
Delimit Scope cmd_scope with cmd.
Notation "x <- c ;; k" := (bind c (fun x => k))
  (at level 100, c at next level, right associativity) : cmd_scope.
Notation "c ;;; k" := (bind c (fun _ => k))
  (at level 100, right associativity) : cmd_scope.
Local Open Scope cmd_scope.

(** [args[i]]; the host passes at least as many arguments as the function's
    minimum arity, and a read past them is undefined. *)
Definition arg (args : list emacs_value) (i : nat) : M emacs_value :=
  match nth_error args i with
  | Some v => pure v
  | None => stuck
  end.

(** ** Host primitives

    The members of [emacs_env] that the module calls, after the Emacs module
    API (emacs-module.h).  Every one of them first looks at the pending
    non-local exit: while one is pending it does nothing and returns its
    failure value ([NULL], [false]). *)

Definition no_exit_pending (s : state) : bool :=
  bool_decide (pending s = emacs_funcall_exit_return).

(** Run [m] when no exit is pending, return [failure] otherwise. *)
Definition MODULE_FUNCTION_BEGIN {A} (failure : A) (m : M A) : M A :=
  fun s => if no_exit_pending s then m s else Some (failure, s).

(** Dereference a value handle. *)
Definition value_to_lisp (v : emacs_value) : M Lisp_Object :=
  match v with
  | Some o => pure o
  | None => stuck
  end.

(** The host raises a condition: the exit becomes pending. *)
Definition xsignal (symbol data : Lisp_Object) : M unit :=
  modify (set_pending (emacs_funcall_exit_signal symbol data)).

(** [env->non_local_exit_signal (env, symbol, data)]: records the signal
    unless an exit is pending already. *)
Definition non_local_exit_signal (symbol data : emacs_value) : M unit :=
  fun s => if no_exit_pending s
           then (sym <- value_to_lisp symbol ;;
                 dat <- value_to_lisp data ;;
                 xsignal sym dat) s
           else Some (tt, s).

(** [env->intern (env, name)]. *)
Definition intern (name : string) : M emacs_value :=
  MODULE_FUNCTION_BEGIN None (pure (Some (Sym name))).

(** Lisp [type-of]. *)
Definition Ftype_of (o : Lisp_Object) : Lisp_Object :=
  match o with
  | Sym _ => Sym "symbol"
  | Int _ => Sym "integer"
  | Float _ => Sym "float"
  | Str _ => Sym "string"
  | Cons _ _ => Sym "cons"
  | Func _ _ _ _ => Sym "module-function"
  end.

(** [env->type_of (env, value)]. *)
Definition type_of (v : emacs_value) : M emacs_value :=
  MODULE_FUNCTION_BEGIN None (o <- value_to_lisp v ;; pure (Some (Ftype_of o))).

(** Lisp [eq] on symbols and integers, the objects that are identified by
    their name or value.  The model keeps no identity for the other objects;
    the module compares symbols only. *)
Definition EQ (a b : Lisp_Object) : bool :=
  match a, b with
  | Sym x, Sym y => bool_decide (x = y)
  | Int x, Int y => bool_decide (x = y)
  | _, _ => false
  end.

(** [env->eq (env, a, b)]. *)
Definition eq (a b : emacs_value) : M bool :=
  MODULE_FUNCTION_BEGIN false
    (x <- value_to_lisp a ;; y <- value_to_lisp b ;; pure (EQ x y)).

(** [env->make_string (env, str, len)]: a new string of the first [len]
    bytes at [str]. *)
Definition make_string (str : string) (len : Z) : M emacs_value :=
  MODULE_FUNCTION_BEGIN None
    (if decide (0 <= len <= Z.of_nat (String.length str))
     then pure (Some (Str (take_bytes (Z.to_nat len) str)))
     else stuck).

(** Write [bytes] to the start of the block at [buf]. *)
Definition write_block (buf : pointer) (bytes : string) : M unit :=
  fun s => match buf with
           | None => None
           | Some a =>
               match heap s !! a with
               | Some blk =>
                   if decide (String.length bytes <= String.length blk)%nat
                   then Some (tt, set_heap (<[a := store bytes blk]> (heap s)) s)
                   else None
               | None => None
               end
           end.

(** [env->copy_string_contents (env, value, buf, &size)]; the result is the
    returned flag and the new [*size].  The text is copied with a
    terminating NUL, and [*size] becomes the byte count with the terminator.
    With [buf] null only the size is reported. *)
Definition copy_string_contents (value : emacs_value) (buf : pointer) (size : Z)
  : M (bool * Z) :=
  MODULE_FUNCTION_BEGIN (false, size)
    (o <- value_to_lisp value ;;
     match o with
     | Str bytes =>
         let required := Z.of_nat (String.length bytes) + 1 in
         match buf with
         | None => pure (true, required)
         | Some _ =>
             if decide (size < required)
             then xsignal (Sym "args-out-of-range")
                          (Cons (Int size) (Cons (Int required) Qnil)) ;;;
                  pure (false, required)
             else write_block buf (bytes ++ String NUL EmptyString) ;;;
                  pure (true, required)
         end
     | _ =>
         xsignal (Sym "wrong-type-argument") (Cons (Sym "stringp") (Cons o Qnil)) ;;;
         pure (false, size)
     end).

(** [env->make_function (env, min, max, function, docstring, data)]. *)
Definition emacs_variadic_function : Z := -2.

Definition make_function (min max : Z) (function : module_fn) (docstring : string)
    (data : pointer) : M emacs_value :=
  MODULE_FUNCTION_BEGIN None
    (if Z.leb 0 min && (if Z.ltb max 0
                        then Z.eqb max emacs_variadic_function
                        else Z.leb min max)
     then pure (Some (Func min max function docstring))
     else xsignal (Sym "invalid-arity") (Cons (Int min) (Int max)) ;;;
          pure None).

(** Lisp [fset]: store [definition] in the function cell of [symbol]. *)
Definition Ffset (symbol definition : Lisp_Object) : M emacs_value :=
  match symbol with
  | Sym name =>
      if decide (symbol = Qnil /\ definition <> Qnil)
      then xsignal (Sym "setting-constant") (Cons symbol Qnil) ;;; pure None
      else modify (fun s => set_fcells (<[name := definition]> (fcells s)) s) ;;;
           pure (Some definition)
  | _ =>
      xsignal (Sym "wrong-type-argument") (Cons (Sym "symbolp") (Cons symbol Qnil)) ;;;
      pure None
  end.

(** [env->funcall (env, func, nargs, args)].  The module calls one Lisp
    function, [fset]; a call of any other function is outside the model. *)
Definition funcall (func : emacs_value) (nargs : Z) (args : list emacs_value)
  : M emacs_value :=
  MODULE_FUNCTION_BEGIN None
    (f <- value_to_lisp func ;;
     if decide (f = Sym "fset")
     then match nargs, args with
          | 2, a0 :: a1 :: _ =>
              symbol <- value_to_lisp a0 ;;
              definition <- value_to_lisp a1 ;;
              Ffset symbol definition
          | _, _ => stuck
          end
     else stuck).

(** ** C library *)

(** The outcome of the next [malloc] call, and the state once the plan has
    moved on. *)
Definition next_malloc_ok (s : state) : bool := hd true (malloc_plan s).

Definition pop_plan (s : state) : state :=
  mkState (pending s) (env_size s) (fcells s) (environ s) (heap s) (brk s)
          (tl (malloc_plan s)).

(** [malloc (size)]: a fresh block of [size] bytes, or [NULL].  The sizes
    the module passes are byte counts reported by the host, between 1 and
    [PTRDIFF_MAX], which the conversion to [size_t] leaves as they are. *)
Definition malloc (size : Z) : M pointer :=
  fun s =>
    if next_malloc_ok s
    then Some (Some (brk s),
               mkState (pending s) (env_size s) (fcells s) (environ s)
                       (<[brk s := zeros (Z.to_nat size)]> (heap s))
                       (S (brk s)) (tl (malloc_plan s)))
    else Some (NULL, pop_plan s).

(** [free (p)]: releases a live block; [free (NULL)] does nothing. *)
Definition free (p : pointer) : M unit :=
  fun s => match p with
           | None => Some (tt, s)
           | Some a =>
               match heap s !! a with
               | Some _ => Some (tt, set_heap (delete a (heap s)) s)
               | None => None
               end
           end.

(** Read the C string at [p]. *)
Definition read_cstr (p : pointer) : M string :=
  fun s => match p with
           | None => None
           | Some a =>
               match heap s !! a with
               | Some blk =>
                   match cstr blk with
                   | Some str => Some (str, s)
                   | None => None
                   end
               | None => None
               end
           end.

(** POSIX: a name is acceptable to [setenv] and [unsetenv] when it is not
    empty and has no ['=']; otherwise they fail with [EINVAL]. *)
Definition valid_name (name : string) : bool :=
  negb (bool_decide (name = EmptyString)) && negb (has_byte "="%char name).

(** The bytes of [s] before its first ['='], and those after it ([None]
    when [s] has no ['=']). *)
Fixpoint before_eq (s : string) : string :=
  match s with
  | EmptyString => EmptyString
  | String c r => if decide (c = "="%char) then EmptyString else String c (before_eq r)
  end.

Fixpoint after_eq (s : string) : option string :=
  match s with
  | EmptyString => None
  | String c r => if decide (c = "="%char) then Some r else after_eq r
  end.

(** [strip_prefix p v]: what follows [p] in [v], when [v] starts with [p]. *)
Fixpoint strip_prefix (p v : string) : option string :=
  match p, v with
  | EmptyString, _ => Some v
  | String c p', String d v' => if decide (c = d) then strip_prefix p' v' else None
  | String _ _, EmptyString => None
  end.

(** The search of [getenv] (as in glibc).  The process environment is a
    set of strings [name=value]; [environ] maps the name of each, the bytes
    before its first ['='], to the bytes after it.  [getenv] returns what
    follows [n=] in the string that starts with [n=], and [NULL] for an empty
    [n].  A string starts with [n=] when its name is [n]; or, for an [n] that
    itself has a ['='], when its name is [n] up to that ['='] and its value
    starts with the rest of [n] and a ['=']. *)
Definition environ_lookup (e : gmap string string) (n : string) : option string :=
  if decide (n = EmptyString) then None
  else match after_eq n with
       | None => e !! n
       | Some n2 =>
           match e !! before_eq n with
           | Some v => strip_prefix (n2 ++ String "="%char EmptyString) v
           | None => None
           end
       end.

(** [getenv (name)]: the value found for the name, as the C string the
    result points to (it belongs to the environment), or [None] for
    [NULL]. *)
Definition getenv (name : pointer) : M (option string) :=
  n <- read_cstr name ;;
  s <- get_state ;;
  pure (environ_lookup (environ s) n).

(** The new string [name=value] of [setenv] needs memory: the function takes
    the next allocation outcome, and fails with [ENOMEM] when that is a
    failure.  The string is kept in [environ], not in [heap]. *)
Definition add_to_environ (n v : string) : M Z :=
  fun s => if next_malloc_ok s
           then Some (0, set_environ (<[n := v]> (environ s)) (pop_plan s))
           else Some (-1, pop_plan s).

(** [setenv (name, value, overwrite)]: 0 on success, -1 on failure, which is
    [EINVAL] for a name that is not acceptable and [ENOMEM] otherwise. *)
Definition setenv (name value : pointer) (overwrite : Z) : M Z :=
  n <- read_cstr name ;;
  if valid_name n
  then
    v <- read_cstr value ;;
    s <- get_state ;;
    match environ s !! n with
    | Some _ =>
        if decide (overwrite = 0) then pure 0
        else add_to_environ n v
    | None => add_to_environ n v
    end
  else pure (-1).

(** [unsetenv (name)]: 0 on success, -1 on failure. *)
Definition unsetenv (name : pointer) : M Z :=
  n <- read_cstr name ;;
  if valid_name n
  then modify (fun s => set_environ (delete n (environ s)) s) ;;; pure 0
  else pure (-1).

(** ** posacs-module.c *)

(** The macros of the file. *)
Definition LISP_IS_STRING (val : emacs_value) : M bool :=
  t <- type_of val ;;
  str <- intern "string" ;;
  eq t str.

Definition LISP_NIL : M emacs_value := intern "nil".
Definition LISP_T : M emacs_value := intern "t".
Definition LISP_SYM (x : string) : M emacs_value := intern x.
Definition LISP_STR (x : string) : M emacs_value := make_string x (strlen x).

(** The conversion of [ptrdiff_t] to [size_t]. *)
Definition to_size_t (z : Z) : Z := z mod 2 ^ 64.

(** [string_from_lisp (env, val)]: the text of the string [val] in a fresh
    block, or [NULL]. *)
Definition string_from_lisp (val : emacs_value) : M pointer :=
  let size := 0 in
  r <- copy_string_contents val NULL size ;;
  let '(ok, size) := r in
  if negb ok then pure NULL
  else
    str <- malloc size ;;
    match str with
    | None =>
        sym <- intern "memory-full" ;;
        data <- LISP_NIL ;;
        non_local_exit_signal sym data ;;;
        pure NULL
    | Some _ =>
        r <- copy_string_contents val str size ;;
        let '(ok, size) := r in
        if negb ok then free str ;;; pure NULL
        else pure str
    end.

(** [posacs_getenv (env, n, args, ptr)].  The [var] declared inside the
    first [if] is a new variable: the [var] of the function body stays
    [NULL], and it is the one that the closing [if (var) free (var)] tests. *)
Definition posacs_getenv (n : Z) (args : list emacs_value) (ptr : pointer)
  : M emacs_value :=
  let var : pointer := NULL in
  ret <- LISP_NIL ;;
  a0 <- arg args 0 ;;
  is_string <- LISP_IS_STRING a0 ;;
  ret <- (if is_string
          then
            a0 <- arg args 0 ;;
            var <- string_from_lisp a0 ;;
            match var with
            | Some _ =>
                val <- getenv var ;;
                match val with
                | Some v => LISP_STR v
                | None => pure ret
                end
            | None => pure ret
            end
          else pure ret) ;;
  match var with Some _ => free var | None => pure tt end ;;;
  pure ret.

(** [posacs_setenv (env, n, args, ptr)]; [var] and [val] are declared twice
    as in [posacs_getenv]. *)
Definition posacs_setenv (n : Z) (args : list emacs_value) (ptr : pointer)
  : M emacs_value :=
  let var : pointer := NULL in
  let val : pointer := NULL in
  ret <- LISP_NIL ;;
  a0 <- arg args 0 ;;
  is_string <- LISP_IS_STRING a0 ;;
  ret <- (if is_string
          then
            a0 <- arg args 0 ;;
            var <- string_from_lisp a0 ;;
            match var with
            | Some _ =>
                a1 <- arg args 1 ;;
                is_string <- LISP_IS_STRING a1 ;;
                if is_string
                then
                  a1 <- arg args 1 ;;
                  val <- string_from_lisp a1 ;;
                  match val with
                  | Some _ =>
                      r <- setenv var val 1 ;;
                      if decide (r = 0) then LISP_T else pure ret
                  | None => pure ret
                  end
                else pure ret
            | None => pure ret
            end
          else pure ret) ;;
  match var with Some _ => free var | None => pure tt end ;;;
  match val with Some _ => free val | None => pure tt end ;;;
  pure ret.

(** [posacs_unsetenv (env, n, args, ptr)]. *)
Definition posacs_unsetenv (n : Z) (args : list emacs_value) (ptr : pointer)
  : M emacs_value :=
  let var : pointer := NULL in
  ret <- LISP_NIL ;;
  a0 <- arg args 0 ;;
  is_string <- LISP_IS_STRING a0 ;;
  ret <- (if is_string
          then
            a0 <- arg args 0 ;;
            var <- string_from_lisp a0 ;;
            match var with
            | Some _ =>
                r <- unsetenv var ;;
                if decide (r = 0) then LISP_T else pure ret
            | None => pure ret
            end
          else pure ret) ;;
  match var with Some _ => free var | None => pure tt end ;;;
  pure ret.

(** The code behind a function pointer. *)
Definition fn_code (f : module_fn)
  : Z -> list emacs_value -> pointer -> M emacs_value :=
  match f with
  | fn_getenv => posacs_getenv
  | fn_setenv => posacs_setenv
  | fn_unsetenv => posacs_unsetenv
  end.

(** [bind_func (env, name, min, max, function, docstring)]. *)
Definition bind_func (name : string) (min max : Z) (function : module_fn)
    (docstring : string) : M unit :=
  fset <- LISP_SYM "fset" ;;
  args0 <- LISP_SYM name ;;
  args1 <- make_function min max function docstring NULL ;;
  funcall fset 2 (args0 :: args1 :: nil) ;;;
  pure tt.

(** [struct fun], the rows of the table in [emacs_module_init]; the last row
    has null pointers. *)
Record fun_row := mkFun {
  name : option string;
  min_arity : Z;
  max_arity : Z;
  function : option module_fn;
  docstring : option string
}.

Definition funcs : list fun_row :=
  mkFun (Some "posacs--getenv") 1 1 (Some fn_getenv) (Some "getenv internal") ::
  mkFun (Some "posacs--setenv") 2 2 (Some fn_setenv) (Some "setenv internal") ::
  mkFun (Some "posacs--unsetenv") 1 1 (Some fn_unsetenv) (Some "unsetenv internal") ::
  mkFun None 0 0 None None :: nil.

(** The loop [for (int i = 0; funcs[i].name != NULL; ++i) bind_func (...)],
    by recursion on the rows from [funcs[i]] on.  A read past the table is
    undefined.  A row with a name and a null function or docstring, of which
    [funcs] has none, would be handed on to the host; what the host makes of
    a null pointer there is outside the model. *)
Fixpoint bind_funcs (rows : list fun_row) : M unit :=
  match rows with
  | nil => stuck
  | row :: rest =>
      match name row with
      | None => pure tt
      | Some nm =>
          match function row, docstring row with
          | Some f, Some doc =>
              bind_func nm (min_arity row) (max_arity row) f doc ;;;
              bind_funcs rest
          | _, _ => stuck
          end
      end
  end.

(** [struct emacs_runtime], of which the code reads [size]; its
    [get_environment] returns the [emacs_env] that the state describes. *)
Record emacs_runtime := mkRuntime { rt_size : Z }.

Section Init.

(** [sizeof (struct emacs_runtime)] and [sizeof (emacs_env)] of the
    emacs-module.h the module is compiled against. *)
Variable sizeof_emacs_runtime : Z.
Variable sizeof_emacs_env : Z.

(** [emacs_module_init (runtime)]. *)
Definition emacs_module_init (runtime : emacs_runtime) : M Z :=
  if decide (to_size_t (rt_size runtime) < sizeof_emacs_runtime) then pure 1
  else
    env <- get_state ;;
    if decide (to_size_t (env_size env) < sizeof_emacs_env) then pure 2
    else
      bind_funcs funcs ;;;
      pure 0.

End Init.

(** ** Vocabulary of the properties *)

(** No non-local exit is pending. *)
Definition quiet (s : state) : Prop := pending s = emacs_funcall_exit_return.

(** The bytes of a string with the terminator that [copy_string_contents]
    adds. *)
Definition terminated (b : string) : string := b ++ String NUL EmptyString.

(** The state after a block with [bytes] was allocated and filled. *)
Definition with_block (bytes : string) (s : state) : state :=
  mkState (pending s) (env_size s) (fcells s) (environ s)
          (<[brk s := bytes]> (heap s)) (S (brk s)) (tl (malloc_plan s)).

(** The state after a failed allocation was reported to the host. *)
Definition memory_full (s : state) : state :=
  set_pending (emacs_funcall_exit_signal (Sym "memory-full") Qnil) (pop_plan s).

(** The outcome of a call is soft when it leaves no exit pending.  The one
    other outcome is the report of a failed allocation: the call used up
    allocation outcomes ending in a failure, it returned [nil], and the
    pending exit is the signal [memory-full] with data [nil]. *)
Definition soft_or_memory_full (s : state) (out : option (emacs_value * state)) : Prop :=
  exists r s',
    out = Some (r, s')
    /\ (pending s' = emacs_funcall_exit_return
        \/ ((exists used, malloc_plan s = (used ++ false :: malloc_plan s')%list)
            /\ r = Some Qnil
            /\ pending s' = emacs_funcall_exit_signal (Sym "memory-full") Qnil)).

(** What the host and the process see of a call: the returned value, the
    pending exit, the process environment and the allocation outcomes that
    are left. *)
Definition observable (out : option (emacs_value * state))
  : option (emacs_value * funcall_exit * gmap string string * list bool) :=
  match out with
  | Some (r, s') => Some (r, pending s', environ s', malloc_plan s')
  | None => None
  end.

(** The largest [ptrdiff_t]. *)
Definition PTRDIFF_MAX : Z := 2 ^ 63 - 1.

(** The function cells after the three rows of [funcs] were bound. *)
Definition with_posacs_functions (f : gmap string Lisp_Object) : gmap string Lisp_Object :=
  <["posacs--unsetenv" := Func 1 1 fn_unsetenv "unsetenv internal"]>
    (<["posacs--setenv" := Func 2 2 fn_setenv "setenv internal"]>
       (<["posacs--getenv" := Func 1 1 fn_getenv "getenv internal"]> f)).

(** ** States and values of the examples *)

(** A process with [HOME] set, an empty heap and an allocator that does not
    fail. *)
Definition home_state : state :=
  mkState emacs_funcall_exit_return 0 ∅ {["HOME" := "/root"]} ∅ 0 nil.

(** The same process with an allocator whose next call fails. *)
Definition oom_state : state :=
  mkState emacs_funcall_exit_return 0 ∅ {["HOME" := "/root"]} ∅ 0 (false :: nil).

(** The same process environment in a state that differs in all the rest: an
    exit left pending by an earlier call, bound function cells, a live
    block. *)
Definition busy_state : state :=
  mkState (emacs_funcall_exit_signal (Sym "error") Qnil) 7
          {["car" := Int 1]} {["HOME" := "/root"]} {[ 4%nat := "junk" ]} 9 nil.

(** A state at module load, with an [emacs_env] of 200 bytes. *)
Definition load_state : state :=
  mkState emacs_funcall_exit_return 200 ∅ ∅ ∅ 0 nil.

(** A process whose allocator fails at its third call. *)
Definition enomem_state : state :=
  mkState emacs_funcall_exit_return 0 ∅ {["HOME" := "/root"]} ∅ 0
          (true :: true :: false :: nil).


(** A string with a NUL byte in the middle. *)
Definition a_nul_b : string := String "a" (String NUL (String "b" EmptyString)).

(** ** The macros that the functions do not use *)

(** [env->is_not_nil (env, value)]; false while an exit is pending. *)
Definition is_not_nil (v : emacs_value) : M bool :=
  MODULE_FUNCTION_BEGIN false
    (o <- value_to_lisp v ;; pure (negb (bool_decide (o = Qnil)))).

(** [env->make_integer (env, n)]. *)
Definition make_integer (n : Z) : M emacs_value :=
  MODULE_FUNCTION_BEGIN None (pure (Some (Int n))).

(** [env->make_float (env, d)], on the bit pattern of the double. *)
Definition make_float (d : Z) : M emacs_value :=
  MODULE_FUNCTION_BEGIN None (pure (Some (Float d))).

(** [env->non_local_exit_check (env)]. *)
Definition non_local_exit_check : M funcall_exit :=
  fun s => Some (pending s, s).

Definition LISP_IS_NIL (val : emacs_value) : M bool :=
  b <- is_not_nil val ;;
  pure (negb b).

Definition LISP_IS_INTEGER (val : emacs_value) : M bool :=
  t <- type_of val ;;
  i <- intern "integer" ;;
  eq t i.

Definition LISP_IS_FLOAT (val : emacs_value) : M bool :=
  t <- type_of val ;;
  f <- intern "float" ;;
  eq t f.

Definition LISP_INT (x : Z) : M emacs_value := make_integer x.
Definition LISP_FLOAT (x : Z) : M emacs_value := make_float x.

(** [NON_LOCAL_EXIT_CHECK (env)] ends the function that uses it when an exit
    is pending: [Some v] says that the function returns [v] there, [None]
    that it goes on. *)
Definition NON_LOCAL_EXIT_CHECK : M (option emacs_value) :=
  x <- non_local_exit_check ;;
  if decide (x <> emacs_funcall_exit_return)
  then (v <- LISP_NIL ;; pure (Some v))
  else pure None.

(** ** Vocabulary of the further properties *)

(** The process environment holds C strings under names that [setenv]
    accepts: no name and no value has a NUL byte, and no name is empty or
    has ['=']. *)
Definition environ_wf (s : state) : Prop :=
  forall nm v,
    environ s !! nm = Some v ->
    valid_name nm = true /\ has_byte NUL nm = false /\ has_byte NUL v = false.

(** The live blocks lie below the address that the next block gets. *)
Definition heap_wf (s : state) : Prop :=
  forall a blk, heap s !! a = Some blk -> (a < brk s)%nat.

(** States at module load with an [emacs_env] of 8 and of 320 bytes. *)
Definition small_env_state : state :=
  mkState emacs_funcall_exit_return 8 ∅ ∅ ∅ 0 nil.

Definition large_env_state : state :=
  mkState emacs_funcall_exit_return 320 ∅ ∅ ∅ 0 nil.

(** A state with an [emacs_env] whose [size] is negative. *)
Definition negative_size_state : state :=
  mkState emacs_funcall_exit_return (-1) ∅ ∅ ∅ 0 nil.

(** A process with two variables and a live block. *)
Definition two_vars_state : state :=
  mkState emacs_funcall_exit_return 0 ∅ {["HOME" := "/root"; "LANG" := "C"]}
          {[ 0%nat := "x" ]} 1 nil.

(** * Properties *)

(** ** C strings *)

Lemma length_append (a b : string) :
  String.length (a ++ b) = (String.length a + String.length b)%nat.
Proof. induction a as [|c a IH]; simpl; [reflexivity | now rewrite IH]. Qed.

Lemma length_zeros (n : nat) : String.length (zeros n) = n.
Proof. induction n as [|n IH]; simpl; [reflexivity | now rewrite IH]. Qed.

Lemma store_exact (src dst : string) :
  String.length src = String.length dst -> store src dst = src.
Proof.
  revert dst; induction src as [|c src IH]; intros [|d dst]; simpl; intros H;
    try discriminate; [reflexivity |].
  f_equal. apply IH. now injection H.
Qed.

Lemma cstr_terminated (b rest : string) :
  cstr (b ++ String NUL rest) = Some (strtrunc b).
Proof.
  induction b as [|c b IH]; simpl.
  - destruct (decide (NUL = NUL)); [reflexivity | contradiction].
  - destruct (decide (c = NUL)); [reflexivity | now rewrite IH].
Qed.

Lemma strtrunc_no_nul (s : string) : has_byte NUL s = false -> strtrunc s = s.
Proof.
  induction s as [|c s IH]; simpl; [reflexivity |].
  destruct (decide (c = NUL)); [discriminate |].
  intros H. now rewrite IH.
Qed.

Lemma has_byte_strtrunc (s : string) : has_byte NUL (strtrunc s) = false.
Proof.
  induction s as [|c s IH]; simpl; [reflexivity |].
  destruct (decide (c = NUL)) as [E|N]; simpl; [reflexivity |].
  destruct (decide (c = NUL)); [contradiction | exact IH].
Qed.

Lemma strtrunc_idem (s : string) : strtrunc (strtrunc s) = strtrunc s.
Proof. apply strtrunc_no_nul, has_byte_strtrunc. Qed.

Lemma length_strtrunc (s : string) :
  (String.length (strtrunc s) <= String.length s)%nat.
Proof.
  induction s as [|c s IH]; simpl; [lia |].
  destruct (decide (c = NUL)); simpl; lia.
Qed.

Lemma take_bytes_strtrunc (s : string) :
  take_bytes (String.length (strtrunc s)) s = strtrunc s.
Proof.
  induction s as [|c s IH]; simpl; [reflexivity |].
  destruct (decide (c = NUL)); simpl; [reflexivity | now rewrite IH].
Qed.

Lemma after_eq_no_eq (n : string) : has_byte "="%char n = false -> after_eq n = None.
Proof.
  induction n as [|c n IH]; simpl; [reflexivity |].
  destruct (decide (c = "="%char)); [discriminate | exact IH].
Qed.

Lemma environ_lookup_no_eq (e : gmap string string) (n : string) :
  has_byte "="%char n = false ->
  environ_lookup e n = if decide (n = EmptyString) then None else e !! n.
Proof. intros H. unfold environ_lookup. now rewrite (after_eq_no_eq n H). Qed.

Lemma environ_lookup_valid (e : gmap string string) (n : string) :
  valid_name n = true -> environ_lookup e n = e !! n.
Proof.
  unfold valid_name. intros [N E]%andb_prop.
  apply negb_true_iff in E. rewrite (environ_lookup_no_eq e n E).
  case_decide as Z; [| reflexivity].
  subst n. discriminate.
Qed.

(** ** The primitives when no exit is pending *)


Lemma quiet_enter (s : state) : quiet (enter s).
Proof. reflexivity. Qed.

Lemma quiet_no_exit_pending (s : state) : quiet s -> no_exit_pending s = true.
Proof. unfold quiet, no_exit_pending. intros ->. reflexivity. Qed.

Lemma intern_quiet (nm : string) (s : state) :
  quiet s -> intern nm s = Some (Some (Sym nm), s).
Proof.
  intros Q. unfold intern, MODULE_FUNCTION_BEGIN.
  now rewrite quiet_no_exit_pending.
Qed.

Lemma LISP_IS_STRING_quiet (o : Lisp_Object) (s : state) :
  quiet s -> LISP_IS_STRING (Some o) s = Some (is_Str o, s).
Proof.
  intros Q. unfold LISP_IS_STRING, bind, type_of, eq, MODULE_FUNCTION_BEGIN.
  rewrite (quiet_no_exit_pending _ Q). simpl.
  unfold intern, MODULE_FUNCTION_BEGIN. rewrite (quiet_no_exit_pending _ Q).
  simpl. rewrite (quiet_no_exit_pending _ Q).
  destruct o; reflexivity.
Qed.

Lemma LISP_STR_quiet (v : string) (s : state) :
  quiet s -> LISP_STR v s = Some (Some (Str (strtrunc v)), s).
Proof.
  intros Q. unfold LISP_STR, make_string, MODULE_FUNCTION_BEGIN, strlen.
  rewrite (quiet_no_exit_pending _ Q).
  pose proof (length_strtrunc v).
  case_decide; [| lia].
  now rewrite Nat2Z.id, take_bytes_strtrunc.
Qed.

Lemma bind_Some {A B} (m : M A) (k : A -> M B) (s s' : state) (a : A) :
  m s = Some (a, s') -> bind m k s = k a s'.
Proof. intros H. unfold bind. now rewrite H. Qed.

Lemma copy_string_contents_size (b : string) (size : Z) (s : state) :
  quiet s ->
  copy_string_contents (Some (Str b)) NULL size s
  = Some ((true, Z.of_nat (String.length b) + 1), s).
Proof.
  intros Q. unfold copy_string_contents, MODULE_FUNCTION_BEGIN.
  now rewrite (quiet_no_exit_pending _ Q).
Qed.


Lemma copy_string_contents_fill (b blk : string) (a : nat) (s : state) :
  quiet s ->
  heap s !! a = Some blk ->
  String.length blk = S (String.length b) ->
  copy_string_contents (Some (Str b)) (Some a) (Z.of_nat (String.length b) + 1) s
  = Some ((true, Z.of_nat (String.length b) + 1),
          set_heap (<[a := b ++ String NUL EmptyString]> (heap s)) s).
Proof.
  intros Q H L. unfold copy_string_contents, MODULE_FUNCTION_BEGIN.
  rewrite (quiet_no_exit_pending _ Q). cbn [value_to_lisp bind pure].
  case_decide; [lia |].
  unfold bind, write_block. rewrite H, length_append, L. cbn [String.length].
  case_decide; [| lia].
  rewrite store_exact; [reflexivity |].
  rewrite length_append, L. cbn [String.length]. lia.
Qed.


Lemma string_from_lisp_ok (b : string) (s : state) :
  quiet s -> next_malloc_ok s = true ->
  string_from_lisp (Some (Str b)) s = Some (Some (brk s), with_block (terminated b) s).
Proof.
  intros Q A. unfold string_from_lisp, terminated.
  rewrite (bind_Some _ _ _ _ _ (copy_string_contents_size b 0 s Q)).
  cbn [negb]. unfold bind at 1, malloc. rewrite A.
  erewrite bind_Some; cycle 1.
  { apply copy_string_contents_fill with (blk := zeros (Z.to_nat (Z.of_nat (String.length b) + 1))).
    - exact Q.
    - cbn [heap]. apply lookup_insert_eq.
    - rewrite length_zeros. lia. }
  cbn [negb]. unfold pure, with_block, set_heap. cbn.
  now rewrite insert_insert_eq.
Qed.

Lemma string_from_lisp_oom (b : string) (s : state) :
  quiet s -> next_malloc_ok s = false ->
  string_from_lisp (Some (Str b)) s = Some (NULL, memory_full s).
Proof.
  intros Q A. unfold string_from_lisp.
  rewrite (bind_Some _ _ _ _ _ (copy_string_contents_size b 0 s Q)).
  cbn [negb]. unfold bind at 1, malloc. rewrite A. unfold NULL. cbv beta iota.
  assert (Q' : quiet (pop_plan s)) by exact Q.
  unfold LISP_NIL.
  rewrite (bind_Some _ _ _ _ _ (intern_quiet "memory-full" _ Q')).
  rewrite (bind_Some _ _ _ _ _ (intern_quiet "nil" _ Q')).
  unfold bind, non_local_exit_signal. rewrite (quiet_no_exit_pending _ Q').
  reflexivity.
Qed.

Lemma quiet_with_block (bytes : string) (s : state) :
  quiet s -> quiet (with_block bytes s).
Proof. intros Q; exact Q. Qed.

Lemma read_cstr_at (a : nat) (b rest : string) (s : state) :
  heap s !! a = Some (b ++ String NUL rest) ->
  read_cstr (Some a) s = Some (strtrunc b, s).
Proof. intros H. unfold read_cstr. now rewrite H, cstr_terminated. Qed.

Lemma getenv_at (a : nat) (b rest : string) (s : state) :
  heap s !! a = Some (b ++ String NUL rest) ->
  getenv (Some a) s = Some (environ_lookup (environ s) (strtrunc b), s).
Proof.
  intros H. unfold getenv.
  now rewrite (bind_Some _ _ _ _ _ (read_cstr_at _ _ _ _ H)).
Qed.

Lemma setenv_at (a a' : nat) (k v rest rest' : string) (s : state) :
  heap s !! a = Some (k ++ String NUL rest) ->
  heap s !! a' = Some (v ++ String NUL rest') ->
  setenv (Some a) (Some a') 1 s
  = if valid_name (strtrunc k)
    then if next_malloc_ok s
         then Some (0, set_environ (<[strtrunc k := strtrunc v]> (environ s)) (pop_plan s))
         else Some (-1, pop_plan s)
    else Some (-1, s).
Proof.
  intros H H'. unfold setenv.
  rewrite (bind_Some _ _ _ _ _ (read_cstr_at _ _ _ _ H)).
  destruct (valid_name (strtrunc k)); [| reflexivity].
  rewrite (bind_Some _ _ _ _ _ (read_cstr_at _ _ _ _ H')).
  unfold bind at 1, get_state.
  destruct (environ s !! strtrunc k); reflexivity.
Qed.

Lemma unsetenv_at (a : nat) (k rest : string) (s : state) :
  heap s !! a = Some (k ++ String NUL rest) ->
  unsetenv (Some a) s
  = if valid_name (strtrunc k)
    then Some (0, set_environ (delete (strtrunc k) (environ s)) s)
    else Some (-1, s).
Proof.
  intros H. unfold unsetenv.
  rewrite (bind_Some _ _ _ _ _ (read_cstr_at _ _ _ _ H)).
  destruct (valid_name (strtrunc k)); reflexivity.
Qed.

(** ** What the three functions compute *)


(** Unfold the sequencing of a function body, so that the next call is at
    the head of the goal. *)
Ltac open_body f :=
  unfold f, LISP_NIL, LISP_T, arg, bind, pure, NULL;
  cbn [nth_error]; cbv beta iota.

(** Replace the call at the head by its result. *)
Ltac exec lem := rewrite lem by (assumption || reflexivity); cbv beta iota.

Lemma posacs_getenv_not_string n a rest ptr (s : state) :
  quiet s -> is_Str a = false ->
  posacs_getenv n (Some a :: rest) ptr s = Some (Some Qnil, s).
Proof.
  intros Q N. open_body posacs_getenv.
  exec (intern_quiet "nil" s Q).
  exec (LISP_IS_STRING_quiet a s Q).
  now rewrite N.
Qed.

Lemma posacs_getenv_oom n k rest ptr (s : state) :
  quiet s -> next_malloc_ok s = false ->
  posacs_getenv n (Some (Str k) :: rest) ptr s = Some (Some Qnil, memory_full s).
Proof.
  intros Q A. open_body posacs_getenv.
  exec (intern_quiet "nil" s Q).
  exec (LISP_IS_STRING_quiet (Str k) s Q). cbn [is_Str].
  exec (string_from_lisp_oom k s Q A).
  reflexivity.
Qed.

Lemma posacs_getenv_string n k rest ptr (s : state) :
  quiet s -> next_malloc_ok s = true ->
  posacs_getenv n (Some (Str k) :: rest) ptr s
  = Some (match environ_lookup (environ s) (strtrunc k) with
          | Some v => Some (Str (strtrunc v))
          | None => Some Qnil
          end, with_block (terminated k) s).
Proof.
  intros Q A. open_body posacs_getenv.
  exec (intern_quiet "nil" s Q).
  exec (LISP_IS_STRING_quiet (Str k) s Q). cbn [is_Str].
  exec (string_from_lisp_ok k s Q A).
  set (s1 := with_block (terminated k) s).
  assert (Q1 : quiet s1) by exact Q.
  assert (H1 : heap s1 !! brk s = Some (terminated k)) by apply lookup_insert_eq.
  exec (getenv_at (brk s) k EmptyString s1 H1).
  change (environ s1) with (environ s).
  destruct (environ_lookup (environ s) (strtrunc k)) as [v|]; [| reflexivity].
  exec (LISP_STR_quiet v s1 Q1). reflexivity.
Qed.

Lemma posacs_unsetenv_not_string n a rest ptr (s : state) :
  quiet s -> is_Str a = false ->
  posacs_unsetenv n (Some a :: rest) ptr s = Some (Some Qnil, s).
Proof.
  intros Q N. open_body posacs_unsetenv.
  exec (intern_quiet "nil" s Q).
  exec (LISP_IS_STRING_quiet a s Q).
  now rewrite N.
Qed.

Lemma posacs_unsetenv_oom n k rest ptr (s : state) :
  quiet s -> next_malloc_ok s = false ->
  posacs_unsetenv n (Some (Str k) :: rest) ptr s = Some (Some Qnil, memory_full s).
Proof.
  intros Q A. open_body posacs_unsetenv.
  exec (intern_quiet "nil" s Q).
  exec (LISP_IS_STRING_quiet (Str k) s Q). cbn [is_Str].
  exec (string_from_lisp_oom k s Q A).
  reflexivity.
Qed.

Lemma posacs_unsetenv_string n k rest ptr (s : state) :
  quiet s -> next_malloc_ok s = true ->
  posacs_unsetenv n (Some (Str k) :: rest) ptr s
  = if valid_name (strtrunc k)
    then Some (Some Qt,
               set_environ (delete (strtrunc k) (environ s))
                           (with_block (terminated k) s))
    else Some (Some Qnil, with_block (terminated k) s).
Proof.
  intros Q A. open_body posacs_unsetenv.
  exec (intern_quiet "nil" s Q).
  exec (LISP_IS_STRING_quiet (Str k) s Q). cbn [is_Str].
  exec (string_from_lisp_ok k s Q A).
  set (s1 := with_block (terminated k) s).
  assert (H1 : heap s1 !! brk s = Some (terminated k)) by apply lookup_insert_eq.
  exec (unsetenv_at (brk s) k EmptyString s1 H1).
  destruct (valid_name (strtrunc k)); cbv beta iota; [| reflexivity].
  case_decide; [| contradiction].
  set (s2 := set_environ _ s1).
  assert (Q2 : quiet s2) by exact Q.
  exec (intern_quiet "t" s2 Q2). reflexivity.
Qed.

Lemma posacs_setenv_not_string n a rest ptr (s : state) :
  quiet s -> is_Str a = false ->
  posacs_setenv n (Some a :: rest) ptr s = Some (Some Qnil, s).
Proof.
  intros Q N. open_body posacs_setenv.
  exec (intern_quiet "nil" s Q).
  exec (LISP_IS_STRING_quiet a s Q).
  now rewrite N.
Qed.

Lemma posacs_setenv_oom n k rest ptr (s : state) :
  quiet s -> next_malloc_ok s = false ->
  posacs_setenv n (Some (Str k) :: rest) ptr s = Some (Some Qnil, memory_full s).
Proof.
  intros Q A. open_body posacs_setenv.
  exec (intern_quiet "nil" s Q).
  exec (LISP_IS_STRING_quiet (Str k) s Q). cbn [is_Str].
  exec (string_from_lisp_oom k s Q A).
  reflexivity.
Qed.

Lemma posacs_setenv_value_not_string n k b rest ptr (s : state) :
  quiet s -> next_malloc_ok s = true -> is_Str b = false ->
  posacs_setenv n (Some (Str k) :: Some b :: rest) ptr s
  = Some (Some Qnil, with_block (terminated k) s).
Proof.
  intros Q A N. open_body posacs_setenv.
  exec (intern_quiet "nil" s Q).
  exec (LISP_IS_STRING_quiet (Str k) s Q). cbn [is_Str].
  exec (string_from_lisp_ok k s Q A).
  set (s1 := with_block (terminated k) s).
  assert (Q1 : quiet s1) by exact Q.
  exec (LISP_IS_STRING_quiet b s1 Q1).
  now rewrite N.
Qed.

Lemma posacs_setenv_value_oom n k v rest ptr (s : state) :
  quiet s -> next_malloc_ok s = true ->
  next_malloc_ok (with_block (terminated k) s) = false ->
  posacs_setenv n (Some (Str k) :: Some (Str v) :: rest) ptr s
  = Some (Some Qnil, memory_full (with_block (terminated k) s)).
Proof.
  intros Q A A'. open_body posacs_setenv.
  exec (intern_quiet "nil" s Q).
  exec (LISP_IS_STRING_quiet (Str k) s Q). cbn [is_Str].
  exec (string_from_lisp_ok k s Q A).
  set (s1 := with_block (terminated k) s) in *.
  assert (Q1 : quiet s1) by exact Q.
  exec (LISP_IS_STRING_quiet (Str v) s1 Q1). cbn [is_Str].
  exec (string_from_lisp_oom v s1 Q1 A').
  reflexivity.
Qed.

Lemma posacs_setenv_strings n k v rest ptr (s : state) :
  quiet s -> next_malloc_ok s = true ->
  next_malloc_ok (with_block (terminated k) s) = true ->
  posacs_setenv n (Some (Str k) :: Some (Str v) :: rest) ptr s
  = let s2 := with_block (terminated v) (with_block (terminated k) s) in
    if valid_name (strtrunc k)
    then if next_malloc_ok s2
         then Some (Some Qt,
                    set_environ (<[strtrunc k := strtrunc v]> (environ s)) (pop_plan s2))
         else Some (Some Qnil, pop_plan s2)
    else Some (Some Qnil, s2).
Proof.
  intros Q A A'. open_body posacs_setenv.
  exec (intern_quiet "nil" s Q).
  exec (LISP_IS_STRING_quiet (Str k) s Q). cbn [is_Str].
  exec (string_from_lisp_ok k s Q A).
  set (s1 := with_block (terminated k) s) in *.
  assert (Q1 : quiet s1) by exact Q.
  exec (LISP_IS_STRING_quiet (Str v) s1 Q1). cbn [is_Str].
  exec (string_from_lisp_ok v s1 Q1 A').
  set (s2 := with_block (terminated v) s1).
  assert (Hk : heap s2 !! brk s = Some (terminated k)).
  { unfold s2, s1, with_block. cbn [heap brk].
    rewrite lookup_insert_ne by lia. apply lookup_insert_eq. }
  assert (Hv : heap s2 !! brk s1 = Some (terminated v)) by apply lookup_insert_eq.
  exec (setenv_at (brk s) (brk s1) k v EmptyString EmptyString s2 Hk Hv).
  destruct (valid_name (strtrunc k)); cbv beta iota; [| reflexivity].
  destruct (next_malloc_ok s2); cbv beta iota; [| reflexivity].
  case_decide; [| contradiction].
  set (s3 := set_environ _ (pop_plan s2)).
  assert (Q3 : quiet s3) by exact Q.
  exec (intern_quiet "t" s3 Q3). reflexivity.
Qed.

(** ** Claims about single calls *)


(** C5.  Given an argument that is not a string, [posacs_getenv] returns
    [nil] and raises nothing: it returns to the host in the state in which it
    was entered, with no non-local exit pending. *)
Theorem posacs_getenv_non_string_is_nil
    (n : Z) (ptr : pointer) (a : Lisp_Object) (rest : list emacs_value) (s : state) :
  is_Str a = false ->
  posacs_getenv n (Some a :: rest) ptr (enter s) = Some (Some Qnil, enter s)
  /\ pending (enter s) = emacs_funcall_exit_return.
Proof.
  intros N. split; [| reflexivity].
  apply posacs_getenv_not_string; [apply quiet_enter | exact N].
Qed.

Lemma posacs_getenv_non_string_is_nil_witness :
  is_Str (Int 3) = false
  /\ posacs_getenv 1 (Some (Int 3) :: nil) NULL (enter home_state)
     = Some (Some Qnil, enter home_state)
  /\ posacs_getenv 1 (Some Qnil :: nil) NULL (enter home_state)
     = Some (Some Qnil, enter home_state).
Proof.
  split; [reflexivity |]. split.
  - apply (posacs_getenv_non_string_is_nil 1 NULL (Int 3) nil home_state).
    reflexivity.
  - apply (posacs_getenv_non_string_is_nil 1 NULL Qnil nil home_state).
    reflexivity.
Defined.




Lemma next_malloc_ok_false (s : state) :
  next_malloc_ok s = false -> malloc_plan s = false :: tl (malloc_plan s).
Proof. unfold next_malloc_ok. destruct (malloc_plan s) as [|[] l]; simpl; congruence. Qed.

Lemma soft_quiet (s s' : state) (r : emacs_value) :
  quiet s' -> soft_or_memory_full s (Some (r, s')).
Proof. intros Q. exists r, s'. split; [reflexivity | left; exact Q]. Qed.

Lemma soft_memory_full (s : state) :
  next_malloc_ok s = false ->
  soft_or_memory_full s (Some (Some Qnil, memory_full (enter s))).
Proof.
  intros A. eexists _, _. split; [reflexivity |]. right. split; [| split; reflexivity].
  exists nil. apply next_malloc_ok_false, A.
Qed.

Lemma soft_memory_full_second (bytes : string) (s : state) :
  next_malloc_ok s = true ->
  next_malloc_ok (with_block bytes (enter s)) = false ->
  soft_or_memory_full s (Some (Some Qnil, memory_full (with_block bytes (enter s)))).
Proof.
  intros A A'. eexists _, _. split; [reflexivity |]. right. split; [| split; reflexivity].
  exists (true :: nil). cbn.
  unfold next_malloc_ok in A, A'. cbn in A'.
  destruct (malloc_plan s) as [|[] [|[] l]]; simpl in *; congruence.
Qed.



Lemma posacs_setenv_soft n ptr a b rest s :
  soft_or_memory_full s (posacs_setenv n (Some a :: Some b :: rest) ptr (enter s)).
Proof.
  pose proof (quiet_enter s) as Q.
  destruct (is_Str a) eqn:Ea.
  - destruct a as [| | |k| |]; try discriminate.
    destruct (next_malloc_ok s) eqn:A.
    + destruct (is_Str b) eqn:Eb.
      * destruct b as [| | |v| |]; try discriminate.
        destruct (next_malloc_ok (with_block (terminated k) (enter s))) eqn:A'.
        -- rewrite posacs_setenv_strings by assumption. cbv zeta.
           destruct (valid_name _);
             [destruct (next_malloc_ok (with_block (terminated v) _)) |];
             now apply soft_quiet.
        -- rewrite posacs_setenv_value_oom by assumption.
           now apply soft_memory_full_second.
      * rewrite posacs_setenv_value_not_string by assumption. now apply soft_quiet.
    + rewrite posacs_setenv_oom by assumption. now apply soft_memory_full.
  - rewrite posacs_setenv_not_string by assumption. now apply soft_quiet.
Qed.



(** ** Claims about the process environment *)

(** What a successful [posacs_setenv] leaves behind: the name and the value
    are bound as the C library read them, up to their first NUL. *)
Lemma posacs_setenv_t_binds n ptr k v rest (s s1 : state) :
  posacs_setenv n (Some (Str k) :: Some (Str v) :: rest) ptr (enter s)
  = Some (Some Qt, s1) ->
  environ s1 !! strtrunc k = Some (strtrunc v).
Proof.
  pose proof (quiet_enter s) as Q.
  destruct (next_malloc_ok (enter s)) eqn:A.
  - destruct (next_malloc_ok (with_block (terminated k) (enter s))) eqn:A'.
    + rewrite posacs_setenv_strings by assumption. cbv zeta.
      destruct (valid_name _); [destruct (next_malloc_ok (with_block (terminated v) _)) |];
        intros [= <-]. apply lookup_insert_eq.
    + rewrite posacs_setenv_value_oom by assumption. intros [= ?].
  - rewrite posacs_setenv_oom by assumption. intros [= ?].
Qed.

(** [posacs_setenv] returns [t] for acceptable names only. *)
Lemma posacs_setenv_t_valid n ptr k v rest (s s1 : state) :
  posacs_setenv n (Some (Str k) :: Some (Str v) :: rest) ptr (enter s)
  = Some (Some Qt, s1) ->
  valid_name (strtrunc k) = true.
Proof.
  pose proof (quiet_enter s) as Q.
  destruct (next_malloc_ok (enter s)) eqn:A.
  - destruct (next_malloc_ok (with_block (terminated k) (enter s))) eqn:A'.
    + rewrite posacs_setenv_strings by assumption. cbv zeta.
      destruct (valid_name _); [reflexivity | intros [= ?]].
    + rewrite posacs_setenv_value_oom by assumption. intros [= ?].
  - rewrite posacs_setenv_oom by assumption. intros [= ?].
Qed.

Lemma posacs_unsetenv_t_unbinds n ptr k rest (s s1 : state) :
  posacs_unsetenv n (Some (Str k) :: rest) ptr (enter s) = Some (Some Qt, s1) ->
  environ s1 !! strtrunc k = None.
Proof.
  pose proof (quiet_enter s) as Q.
  destruct (next_malloc_ok (enter s)) eqn:A.
  - rewrite posacs_unsetenv_string by assumption.
    destruct (valid_name _); intros [= <-]. apply lookup_delete_eq.
  - rewrite posacs_unsetenv_oom by assumption. intros [= ?].
Qed.

Lemma posacs_setenv_returns n ptr k v rest (s : state) :
  exists r s1,
    posacs_setenv n (Some (Str k) :: Some (Str v) :: rest) ptr (enter s) = Some (r, s1).
Proof.
  destruct (posacs_setenv_soft n ptr (Str k) (Str v) rest s) as (r & s1 & E & _).
  now exists r, s1.
Qed.

(** [posacs_getenv] on a bound acceptable name, when its allocation
    succeeds. *)
Lemma posacs_getenv_bound n ptr k v rest (s : state) :
  valid_name (strtrunc k) = true ->
  environ s !! strtrunc k = Some v ->
  next_malloc_ok s = true ->
  exists s', posacs_getenv n (Some (Str k) :: rest) ptr (enter s)
             = Some (Some (Str (strtrunc v)), s').
Proof.
  intros V B A. rewrite posacs_getenv_string by (apply quiet_enter || exact A).
  change (environ (enter s)) with (environ s).
  rewrite (environ_lookup_valid _ _ V), B. eexists. reflexivity.
Qed.



(** C2, as stated, fails: after [posacs_setenv] has bound ["K"] to a string
    with an inner NUL byte and returned [t], [posacs_getenv] returns the part
    before the NUL, not the string. *)
Lemma roundtrip_fails_on_inner_nul :
  exists s1 s2,
    posacs_setenv 2 (Some (Str "K") :: Some (Str a_nul_b) :: nil) NULL (enter home_state)
    = Some (Some Qt, s1)
    /\ posacs_getenv 1 (Some (Str "K") :: nil) NULL (enter s1)
       = Some (Some (Str "a"), s2)
    /\ Some (Str "a") <> Some (Str a_nul_b).
Proof. eexists _, _. split; [| split]; [vm_compute; reflexivity .. | discriminate]. Qed.

(** C2, amended.  If [posacs_setenv] on the strings [k] and [v] returns [t],
    [v] has no NUL byte and the allocation of the following [posacs_getenv]
    on [k] succeeds, then that call returns a string with the bytes of
    [v]. *)
Theorem posacs_setenv_getenv_roundtrip
    (n n' : Z) (ptr ptr' : pointer) (k v : string) (s s1 : state) :
  posacs_setenv n (Some (Str k) :: Some (Str v) :: nil) ptr (enter s) = Some (Some Qt, s1) ->
  has_byte NUL v = false ->
  next_malloc_ok s1 = true ->
  exists s2, posacs_getenv n' (Some (Str k) :: nil) ptr' (enter s1) = Some (Some (Str v), s2).
Proof.
  intros E Hv A.
  destruct (posacs_getenv_bound n' ptr' k (strtrunc v) nil s1
              (posacs_setenv_t_valid _ _ _ _ _ _ _ E)
              (posacs_setenv_t_binds _ _ _ _ _ _ _ E) A) as [s2 G].
  exists s2. rewrite G, strtrunc_idem, (strtrunc_no_nul v Hv). reflexivity.
Qed.

Lemma posacs_setenv_getenv_roundtrip_witness :
  exists s1,
    posacs_setenv 2 (Some (Str "FOO") :: Some (Str "bar") :: nil) NULL (enter home_state)
    = Some (Some Qt, s1)
    /\ has_byte NUL "bar" = false
    /\ next_malloc_ok s1 = true
    /\ exists s2, posacs_getenv 1 (Some (Str "FOO") :: nil) NULL (enter s1)
                  = Some (Some (Str "bar"), s2).
Proof.
  eexists. split; [vm_compute; reflexivity |].
  split; [reflexivity |]. split; [reflexivity |].
  eapply (posacs_setenv_getenv_roundtrip 2 1 NULL NULL "FOO" "bar" home_state);
    [vm_compute; reflexivity | reflexivity | reflexivity].
Defined.

(** C3, as stated, fails: a name with ['='] is refused by [setenv], so
    after two calls of [posacs_setenv] on it, both returning [nil],
    [posacs_getenv] returns [nil] and not the second value. *)
Lemma last_write_fails_on_invalid_name :
  exists s1 s2 s3,
    posacs_setenv 2 (Some (Str "A=B") :: Some (Str "one") :: nil) NULL (enter home_state)
    = Some (Some Qnil, s1)
    /\ posacs_setenv 2 (Some (Str "A=B") :: Some (Str "two") :: nil) NULL (enter s1)
       = Some (Some Qnil, s2)
    /\ posacs_getenv 1 (Some (Str "A=B") :: nil) NULL (enter s2) = Some (Some Qnil, s3)
    /\ Some Qnil <> Some (Str "two").
Proof.
  eexists _, _, _. split; [| split; [| split]];
    [vm_compute; reflexivity .. | discriminate].
Qed.

(** C3, amended.  After [posacs_setenv] on [k] and [v1], whatever it
    returned, a [posacs_setenv] on [k] and [v2] that returns [t] has replaced
    any binding of [k]: if [v2] has no NUL byte and the allocation of the
    following [posacs_getenv] on [k] succeeds, that call returns a string
    with the bytes of [v2]. *)
Theorem posacs_setenv_last_write_wins
    (n : Z) (ptr : pointer) (k v1 v2 : string) (s : state) :
  has_byte NUL v2 = false ->
  exists r1 s1,
    posacs_setenv n (Some (Str k) :: Some (Str v1) :: nil) ptr (enter s) = Some (r1, s1)
    /\ forall s2,
        posacs_setenv n (Some (Str k) :: Some (Str v2) :: nil) ptr (enter s1)
        = Some (Some Qt, s2) ->
        next_malloc_ok s2 = true ->
        exists s3, posacs_getenv n (Some (Str k) :: nil) ptr (enter s2)
                   = Some (Some (Str v2), s3).
Proof.
  intros Hv. destruct (posacs_setenv_returns n ptr k v1 nil s) as (r1 & s1 & E1).
  exists r1, s1. split; [exact E1 |]. intros s2 E2 A.
  destruct (posacs_getenv_bound n ptr k (strtrunc v2) nil s2
              (posacs_setenv_t_valid _ _ _ _ _ _ _ E2)
              (posacs_setenv_t_binds _ _ _ _ _ _ _ E2) A) as [s3 G].
  exists s3. rewrite G, strtrunc_idem, (strtrunc_no_nul v2 Hv). reflexivity.
Qed.

Lemma posacs_setenv_last_write_wins_witness :
  has_byte NUL "two" = false
  /\ exists s1 s2 s3,
      posacs_setenv 2 (Some (Str "FOO") :: Some (Str "one") :: nil) NULL (enter home_state)
      = Some (Some Qt, s1)
      /\ posacs_setenv 2 (Some (Str "FOO") :: Some (Str "two") :: nil) NULL (enter s1)
         = Some (Some Qt, s2)
      /\ next_malloc_ok s2 = true
      /\ posacs_getenv 2 (Some (Str "FOO") :: nil) NULL (enter s2)
         = Some (Some (Str "two"), s3).
Proof.
  split; [reflexivity |].
  destruct (posacs_setenv_last_write_wins 2 NULL "FOO" "one" "two" home_state eq_refl)
    as (r1 & s1 & E1 & K).
  assert (E1' : Some (r1, s1)
                = posacs_setenv 2 (Some (Str "FOO") :: Some (Str "one") :: nil) NULL
                    (enter home_state)) by (symmetry; exact E1).
  vm_compute in E1'. injection E1' as -> ->.
  eexists _, _. 
  destruct (K _ ltac:(vm_compute; reflexivity) eq_refl) as [s3 G].
  exists s3. split; [vm_compute; reflexivity |].
  split; [vm_compute; reflexivity |]. split; [reflexivity | exact G].
Defined.





(** ** The lifetime of the marshaled strings *)

(** Each of the three functions returns with the blocks that its calls of
    [string_from_lisp] returned still allocated. *)
Lemma posacs_getenv_keeps_block n ptr k rest (s : state) :
  next_malloc_ok s = true ->
  exists r s', posacs_getenv n (Some (Str k) :: rest) ptr (enter s) = Some (r, s')
               /\ heap s' !! brk s = Some (terminated k).
Proof.
  intros A. rewrite posacs_getenv_string by (apply quiet_enter || exact A).
  eexists _, _. split; [reflexivity | apply lookup_insert_eq].
Qed.

Lemma posacs_unsetenv_keeps_block n ptr k rest (s : state) :
  next_malloc_ok s = true ->
  exists r s', posacs_unsetenv n (Some (Str k) :: rest) ptr (enter s) = Some (r, s')
               /\ heap s' !! brk s = Some (terminated k).
Proof.
  intros A. rewrite posacs_unsetenv_string by (apply quiet_enter || exact A).
  destruct (valid_name _); eexists _, _; (split; [reflexivity | apply lookup_insert_eq]).
Qed.

Lemma posacs_setenv_keeps_blocks n ptr k v rest (s : state) :
  next_malloc_ok s = true ->
  next_malloc_ok (pop_plan s) = true ->
  exists r s', posacs_setenv n (Some (Str k) :: Some (Str v) :: rest) ptr (enter s)
               = Some (r, s')
               /\ heap s' !! brk s = Some (terminated k)
               /\ heap s' !! S (brk s) = Some (terminated v).
Proof.
  intros A A'. rewrite posacs_setenv_strings by (apply quiet_enter || assumption).
  cbv zeta.
  destruct (valid_name _); [destruct (next_malloc_ok (with_block (terminated v) _)) |];
    eexists _, _;
    (split; [reflexivity |];
     cbn [heap set_environ with_block brk enter set_pending pop_plan];
     split; [rewrite lookup_insert_ne by lia |]; apply lookup_insert_eq).
Qed.

(** C1 fails on the code.  [posacs_getenv] on ["HOME"], entered with an empty
    heap, returns the value of [HOME] and leaves the heap with the block that
    [string_from_lisp] allocated for the name: the block was not freed. *)
Theorem posacs_getenv_leaves_block_allocated :
  heap (enter home_state) = ∅
  /\ exists s',
      posacs_getenv 1 (Some (Str "HOME") :: nil) NULL (enter home_state)
      = Some (Some (Str "/root"), s')
      /\ heap s' = {[ 0%nat := terminated "HOME" ]}.
Proof.
  split; [reflexivity |]. eexists. split; [vm_compute; reflexivity | reflexivity].
Qed.

(** ** The order in which [posacs_setenv] looks at its arguments *)

(** C10.  [posacs_setenv] looks at its second argument only after the text
    of the first was extracted.  With a string as first argument and a
    failing allocation it signals [memory-full] whatever follows the first
    argument, even when nothing does; with a string as first argument and a
    successful allocation, a second argument that is not a string gives
    [nil] with that one block allocated; and a first argument that is not a
    string gives [nil] in the state of entry: nothing was allocated. *)
Theorem posacs_setenv_left_to_right
    (n : Z) (ptr : pointer) (k : string) (a : Lisp_Object)
    (rest : list emacs_value) (s : state) :
  (next_malloc_ok s = false ->
   exists s', posacs_setenv n (Some (Str k) :: rest) ptr (enter s) = Some (Some Qnil, s')
              /\ pending s' = emacs_funcall_exit_signal (Sym "memory-full") Qnil)
  /\ (next_malloc_ok s = true -> is_Str a = false ->
      posacs_setenv n (Some (Str k) :: Some a :: rest) ptr (enter s)
      = Some (Some Qnil, with_block (terminated k) (enter s)))
  /\ (is_Str a = false ->
      posacs_setenv n (Some a :: rest) ptr (enter s) = Some (Some Qnil, enter s)).
Proof.
  pose proof (quiet_enter s) as Q. split; [| split].
  - intros A. rewrite posacs_setenv_oom by assumption.
    eexists. split; reflexivity.
  - intros A N. now apply posacs_setenv_value_not_string.
  - intros N. now apply posacs_setenv_not_string.
Qed.

Lemma posacs_setenv_left_to_right_witness :
  next_malloc_ok oom_state = false
  /\ (exists s', posacs_setenv 2 (Some (Str "FOO") :: Some (Int 7) :: nil) NULL
                   (enter oom_state) = Some (Some Qnil, s')
                 /\ pending s' = emacs_funcall_exit_signal (Sym "memory-full") Qnil)
  /\ next_malloc_ok home_state = true
  /\ is_Str (Int 7) = false
  /\ posacs_setenv 2 (Some (Str "FOO") :: Some (Int 7) :: nil) NULL (enter home_state)
     = Some (Some Qnil, with_block (terminated "FOO") (enter home_state))
  /\ posacs_setenv 2 (Some (Int 7) :: Some (Str "bar") :: nil) NULL (enter oom_state)
     = Some (Some Qnil, enter oom_state).
Proof.
  split; [reflexivity |].
  split; [apply (proj1 (posacs_setenv_left_to_right
                          2 NULL "FOO" (Int 7) (Some (Int 7) :: nil) oom_state));
          reflexivity |].
  split; [reflexivity |]. split; [reflexivity |].
  split; [apply (proj1 (proj2 (posacs_setenv_left_to_right
                                 2 NULL "FOO" (Int 7) nil home_state)));
          reflexivity |].
  apply (proj2 (proj2 (posacs_setenv_left_to_right
                         2 NULL "FOO" (Int 7) (Some (Str "bar") :: nil) oom_state))).
  reflexivity.
Defined.

(** ** Registration *)


Lemma to_size_t_nonneg (z : Z) : 0 <= z <= PTRDIFF_MAX -> to_size_t z = z.
Proof. unfold PTRDIFF_MAX, to_size_t. intros H. apply Z.mod_small. lia. Qed.

Lemma bind_func_binds nm min max f doc (s : state) :
  quiet s ->
  nm <> "nil" ->
  0 <= min <= max ->
  bind_func nm min max f doc s
  = Some (tt, set_fcells (<[nm := Func min max f doc]> (fcells s)) s).
Proof.
  intros Q N R. unfold bind_func, LISP_SYM, bind, pure. cbv beta iota.
  exec (intern_quiet "fset" s Q).
  exec (intern_quiet nm s Q).
  unfold make_function, MODULE_FUNCTION_BEGIN.
  rewrite (quiet_no_exit_pending _ Q).
  replace (Z.leb 0 min) with true by (symmetry; apply Z.leb_le; lia).
  replace (Z.ltb max 0) with false by (symmetry; apply Z.ltb_ge; lia).
  replace (Z.leb min max) with true by (symmetry; apply Z.leb_le; lia).
  cbn [andb]. unfold pure. cbv beta iota.
  unfold funcall, MODULE_FUNCTION_BEGIN.
  rewrite (quiet_no_exit_pending _ Q).
  unfold bind, value_to_lisp, pure. cbv beta iota.
  case_decide; [| contradiction].
  unfold Ffset. case_decide as C.
  - destruct C as [C _]. injection C as C. contradiction.
  - reflexivity.
Qed.


Lemma bind_funcs_table (s : state) :
  quiet s ->
  bind_funcs funcs s = Some (tt, set_fcells (with_posacs_functions (fcells s)) s).
Proof.
  intros Q. unfold funcs. cbn [bind_funcs name function docstring min_arity max_arity].
  erewrite bind_Some; [| apply bind_func_binds; [exact Q | discriminate | lia]].
  erewrite bind_Some; [| apply bind_func_binds; [exact Q | discriminate | lia]].
  erewrite bind_Some; [| apply bind_func_binds; [exact Q | discriminate | lia]].
  reflexivity.
Qed.

(** C8, as stated, fails: a runtime handle whose [size] is -1 is smaller
    than the expected 24 bytes, yet [emacs_module_init] does not return 1.
    The comparison is made after the conversion to [size_t], where -1 is
    [2 ^ 64 - 1]; the function goes on, binds the three functions and
    returns 0. *)
Lemma negative_runtime_size_is_not_too_small :
  rt_size (mkRuntime (-1)) < 24
  /\ emacs_module_init 24 200 (mkRuntime (-1)) (enter load_state)
     = Some (0, set_fcells (with_posacs_functions ∅) (enter load_state))
  /\ 0 <> 1.
Proof. split; [cbn; lia |]. split; [vm_compute; reflexivity | lia]. Qed.

(** C8, amended.  With handle sizes that are not negative, from 0 to
    [PTRDIFF_MAX], [emacs_module_init]
    returns 1 when the size of the runtime handle is below
    [sizeof (struct emacs_runtime)]; otherwise 2 when the size of the
    environment handle is below [sizeof (emacs_env)]; otherwise it returns 0
    and has stored in the function cells of [posacs--getenv],
    [posacs--setenv] and [posacs--unsetenv] the module functions
    [posacs_getenv] (arity 1 to 1), [posacs_setenv] (2 to 2) and
    [posacs_unsetenv] (1 to 1), and changed nothing else.  In the first two
    cases it changes nothing. *)
Theorem emacs_module_init_result
    (sizeof_emacs_runtime sizeof_emacs_env : Z) (runtime : emacs_runtime) (s : state) :
  0 <= rt_size runtime <= PTRDIFF_MAX ->
  0 <= env_size s <= PTRDIFF_MAX ->
  (rt_size runtime < sizeof_emacs_runtime ->
   emacs_module_init sizeof_emacs_runtime sizeof_emacs_env runtime (enter s)
   = Some (1, enter s))
  /\ (sizeof_emacs_runtime <= rt_size runtime ->
      env_size s < sizeof_emacs_env ->
      emacs_module_init sizeof_emacs_runtime sizeof_emacs_env runtime (enter s)
      = Some (2, enter s))
  /\ (sizeof_emacs_runtime <= rt_size runtime ->
      sizeof_emacs_env <= env_size s ->
      emacs_module_init sizeof_emacs_runtime sizeof_emacs_env runtime (enter s)
      = Some (0, set_fcells
                   (<["posacs--unsetenv" := Func 1 1 fn_unsetenv "unsetenv internal"]>
                      (<["posacs--setenv" := Func 2 2 fn_setenv "setenv internal"]>
                         (<["posacs--getenv" := Func 1 1 fn_getenv "getenv internal"]>
                            (fcells s))))
                   (enter s))
      /\ fn_code fn_getenv = posacs_getenv
      /\ fn_code fn_setenv = posacs_setenv
      /\ fn_code fn_unsetenv = posacs_unsetenv).
Proof.
  intros Rr Re. unfold emacs_module_init.
  rewrite (to_size_t_nonneg _ Rr).
  change (env_size (enter s)) with (env_size s).
  split; [| split].
  - intros L. case_decide; [reflexivity | lia].
  - intros G L. case_decide; [lia |].
    unfold bind, get_state. change (env_size (enter s)) with (env_size s).
    rewrite (to_size_t_nonneg _ Re). case_decide; [reflexivity | lia].
  - intros G G'. split; [| repeat split].
    case_decide; [lia |].
    unfold bind at 1, get_state. change (env_size (enter s)) with (env_size s).
    rewrite (to_size_t_nonneg _ Re). case_decide; [lia |].
    rewrite (bind_Some _ _ _ _ _ (bind_funcs_table _ (quiet_enter s))).
    reflexivity.
Qed.

Lemma emacs_module_init_result_witness :
  (0 <= 16 <= PTRDIFF_MAX /\ 0 <= 24 <= PTRDIFF_MAX /\ 0 <= 200 <= PTRDIFF_MAX)
  /\ emacs_module_init 24 200 (mkRuntime 16) (enter load_state)
     = Some (1, enter load_state)
  /\ emacs_module_init 24 208 (mkRuntime 24) (enter load_state)
     = Some (2, enter load_state)
  /\ emacs_module_init 24 200 (mkRuntime 24) (enter load_state)
     = Some (0, set_fcells (with_posacs_functions ∅) (enter load_state)).
Proof.
  assert (R16 : 0 <= 16 <= PTRDIFF_MAX) by (unfold PTRDIFF_MAX; lia).
  assert (R24 : 0 <= 24 <= PTRDIFF_MAX) by (unfold PTRDIFF_MAX; lia).
  assert (R200 : 0 <= 200 <= PTRDIFF_MAX) by (unfold PTRDIFF_MAX; lia).
  split; [auto |].
  split; [apply (proj1 (emacs_module_init_result
                          24 200 (mkRuntime 16) load_state R16 R200));
          cbn; lia |].
  split; [apply (proj1 (proj2 (emacs_module_init_result
                                 24 208 (mkRuntime 24) load_state R24 R200)));
          cbn; lia |].
  apply (proj1 (proj2 (proj2 (emacs_module_init_result
                                24 200 (mkRuntime 24) load_state R24 R200))
                 ltac:(cbn; lia) ltac:(cbn; lia))).
Defined.

(** ** What the results depend on *)

(** Where the code reads an argument that was not passed or follows a null
    handle, it is stuck. *)
Lemma posacs_getenv_no_arg n ptr (s : state) : posacs_getenv n nil ptr (enter s) = None.
Proof. open_body posacs_getenv. exec (intern_quiet "nil" (enter s) (quiet_enter s)). reflexivity. Qed.

Lemma posacs_unsetenv_no_arg n ptr (s : state) : posacs_unsetenv n nil ptr (enter s) = None.
Proof. open_body posacs_unsetenv. exec (intern_quiet "nil" (enter s) (quiet_enter s)). reflexivity. Qed.

Lemma posacs_setenv_no_arg n ptr (s : state) : posacs_setenv n nil ptr (enter s) = None.
Proof. open_body posacs_setenv. exec (intern_quiet "nil" (enter s) (quiet_enter s)). reflexivity. Qed.

Lemma LISP_IS_STRING_null (s : state) : quiet s -> LISP_IS_STRING None s = None.
Proof.
  intros Q. unfold LISP_IS_STRING, bind, type_of, MODULE_FUNCTION_BEGIN.
  now rewrite (quiet_no_exit_pending _ Q).
Qed.

Lemma posacs_getenv_null n ptr rest (s : state) :
  posacs_getenv n (None :: rest) ptr (enter s) = None.
Proof.
  open_body posacs_getenv. exec (intern_quiet "nil" (enter s) (quiet_enter s)).
  now rewrite (LISP_IS_STRING_null _ (quiet_enter s)).
Qed.

Lemma posacs_unsetenv_null n ptr rest (s : state) :
  posacs_unsetenv n (None :: rest) ptr (enter s) = None.
Proof.
  open_body posacs_unsetenv. exec (intern_quiet "nil" (enter s) (quiet_enter s)).
  now rewrite (LISP_IS_STRING_null _ (quiet_enter s)).
Qed.

Lemma posacs_setenv_null n ptr rest (s : state) :
  posacs_setenv n (None :: rest) ptr (enter s) = None.
Proof.
  open_body posacs_setenv. exec (intern_quiet "nil" (enter s) (quiet_enter s)).
  now rewrite (LISP_IS_STRING_null _ (quiet_enter s)).
Qed.

Lemma posacs_setenv_no_value n ptr k (s : state) :
  next_malloc_ok s = true ->
  posacs_setenv n (Some (Str k) :: nil) ptr (enter s) = None.
Proof.
  intros A. pose proof (quiet_enter s) as Q. open_body posacs_setenv.
  exec (intern_quiet "nil" (enter s) Q).
  exec (LISP_IS_STRING_quiet (Str k) (enter s) Q). cbn [is_Str].
  exec (string_from_lisp_ok k (enter s) Q A). reflexivity.
Qed.

Lemma posacs_setenv_null_value n ptr k rest (s : state) :
  next_malloc_ok s = true ->
  posacs_setenv n (Some (Str k) :: None :: rest) ptr (enter s) = None.
Proof.
  intros A. pose proof (quiet_enter s) as Q. open_body posacs_setenv.
  exec (intern_quiet "nil" (enter s) Q).
  exec (LISP_IS_STRING_quiet (Str k) (enter s) Q). cbn [is_Str].
  exec (string_from_lisp_ok k (enter s) Q A).
  rewrite LISP_IS_STRING_null by exact Q. reflexivity.
Qed.


Section SameInputs.

Variables s s' : state.
Hypothesis same_environ : environ s = environ s'.
Hypothesis same_plan : malloc_plan s = malloc_plan s'.

Lemma same_next_malloc_ok : next_malloc_ok s' = next_malloc_ok s.
Proof. unfold next_malloc_ok. now rewrite same_plan. Qed.

Lemma same_next_malloc_ok_second (b b' : string) :
  next_malloc_ok (with_block b' (enter s')) = next_malloc_ok (with_block b (enter s)).
Proof. unfold next_malloc_ok. cbn. now rewrite same_plan. Qed.

Ltac same_obs :=
  unfold observable, memory_full;
  cbn [pending environ malloc_plan enter set_pending set_environ with_block pop_plan];
  rewrite <- ?same_environ, <- ?same_plan; reflexivity.

Lemma posacs_getenv_same n n' ptr ptr' (v : emacs_value) rest rest' :
  observable (posacs_getenv n (v :: rest) ptr (enter s))
  = observable (posacs_getenv n' (v :: rest') ptr' (enter s')).
Proof.
  pose proof (quiet_enter s) as Q. pose proof (quiet_enter s') as Q'.
  destruct v as [a|]; [| now rewrite !posacs_getenv_null].
  destruct (is_Str a) eqn:E.
  - destruct a as [| | |k| |]; try discriminate.
    pose proof same_next_malloc_ok as A'.
    destruct (next_malloc_ok s) eqn:A.
    + rewrite !posacs_getenv_string by assumption. same_obs.
    + rewrite !posacs_getenv_oom by assumption. same_obs.
  - rewrite !posacs_getenv_not_string by assumption. same_obs.
Qed.

Lemma posacs_unsetenv_same n n' ptr ptr' (v : emacs_value) rest rest' :
  observable (posacs_unsetenv n (v :: rest) ptr (enter s))
  = observable (posacs_unsetenv n' (v :: rest') ptr' (enter s')).
Proof.
  pose proof (quiet_enter s) as Q. pose proof (quiet_enter s') as Q'.
  destruct v as [a|]; [| now rewrite !posacs_unsetenv_null].
  destruct (is_Str a) eqn:E.
  - destruct a as [| | |k| |]; try discriminate.
    pose proof same_next_malloc_ok as A'.
    destruct (next_malloc_ok s) eqn:A.
    + rewrite !posacs_unsetenv_string by assumption.
      destruct (valid_name _); same_obs.
    + rewrite !posacs_unsetenv_oom by assumption. same_obs.
  - rewrite !posacs_unsetenv_not_string by assumption. same_obs.
Qed.

Lemma posacs_setenv_same n n' ptr ptr' (args args' : list emacs_value) :
  nth_error args 0 = nth_error args' 0 ->
  nth_error args 1 = nth_error args' 1 ->
  observable (posacs_setenv n args ptr (enter s))
  = observable (posacs_setenv n' args' ptr' (enter s')).
Proof.
  pose proof (quiet_enter s) as Q. pose proof (quiet_enter s') as Q'.
  intros H0 H1.
  destruct args as [|v rest], args' as [|v' rest']; cbn [nth_error] in H0, H1;
    try discriminate; [now rewrite !posacs_setenv_no_arg |].
  injection H0 as <-.
  destruct v as [a|]; [| now rewrite !posacs_setenv_null].
  destruct (is_Str a) eqn:E;
    [| rewrite !posacs_setenv_not_string by assumption; same_obs].
  destruct a as [| | |k| |]; try discriminate.
  pose proof same_next_malloc_ok as A'.
  destruct (next_malloc_ok s) eqn:A;
    [| rewrite !posacs_setenv_oom by assumption; same_obs].
  destruct rest as [|w rest], rest' as [|w' rest']; cbn [nth_error] in H1;
    try discriminate; [now rewrite !posacs_setenv_no_value by assumption |].
  injection H1 as <-.
  destruct w as [b|]; [| now rewrite !posacs_setenv_null_value by assumption].
  destruct (is_Str b) eqn:Eb;
    [| rewrite !posacs_setenv_value_not_string by assumption; same_obs].
  destruct b as [| | |v| |]; try discriminate.
  pose proof (same_next_malloc_ok_second (terminated k) (terminated k)) as A2'.
  destruct (next_malloc_ok (with_block (terminated k) (enter s))) eqn:A2.
  - assert (A3 : next_malloc_ok
                   (with_block (terminated v) (with_block (terminated k) (enter s')))
                 = next_malloc_ok
                     (with_block (terminated v) (with_block (terminated k) (enter s))))
      by (unfold next_malloc_ok; cbn; now rewrite same_plan).
    rewrite !posacs_setenv_strings by assumption. cbv zeta. rewrite A3. clear A3.
    destruct (valid_name _);
      [destruct (next_malloc_ok
                   (with_block (terminated v) (with_block (terminated k) (enter s)))) |];
      same_obs.
  - rewrite !posacs_setenv_value_oom by assumption. same_obs.
Qed.

End SameInputs.

(** C9.  What a call of the three functions returns, the exit it leaves
    pending, the process environment and the allocation outcomes it leaves
    are determined by [args[0]] (and [args[1]] for [posacs_setenv]), the
    process environment and the allocation outcomes at entry: two calls that
    agree on these agree on them, whatever [n], [ptr], the further arguments
    and the rest of the two states are. *)
Theorem posacs_results_depend_on_declared_arguments
    (n n' : Z) (ptr ptr' : pointer) (args args' : list emacs_value) (s s' : state) :
  nth_error args 0 = nth_error args' 0 ->
  environ s = environ s' ->
  malloc_plan s = malloc_plan s' ->
  observable (posacs_getenv n args ptr (enter s))
  = observable (posacs_getenv n' args' ptr' (enter s'))
  /\ observable (posacs_unsetenv n args ptr (enter s))
     = observable (posacs_unsetenv n' args' ptr' (enter s'))
  /\ (nth_error args 1 = nth_error args' 1 ->
      observable (posacs_setenv n args ptr (enter s))
      = observable (posacs_setenv n' args' ptr' (enter s'))).
Proof.
  intros H0 He Hp. split; [| split].
  - destruct args as [|v rest], args' as [|v' rest']; cbn [nth_error] in H0;
      try discriminate; [now rewrite !posacs_getenv_no_arg |].
    injection H0 as <-. now apply posacs_getenv_same.
  - destruct args as [|v rest], args' as [|v' rest']; cbn [nth_error] in H0;
      try discriminate; [now rewrite !posacs_unsetenv_no_arg |].
    injection H0 as <-. now apply posacs_unsetenv_same.
  - intros H1. now apply posacs_setenv_same.
Qed.

Lemma posacs_results_depend_on_declared_arguments_witness :
  nth_error (Some (Str "HOME") :: Some (Str "x") :: nil) 0
  = nth_error (Some (Str "HOME") :: Some (Str "x") :: Some (Int 5) :: nil) 0
  /\ nth_error (Some (Str "HOME") :: Some (Str "x") :: nil) 1
     = nth_error (Some (Str "HOME") :: Some (Str "x") :: Some (Int 5) :: nil) 1
  /\ environ home_state = environ busy_state
  /\ malloc_plan home_state = malloc_plan busy_state
  /\ observable (posacs_getenv 1 (Some (Str "HOME") :: Some (Str "x") :: nil) NULL
                   (enter home_state))
     = observable (posacs_getenv 3 (Some (Str "HOME") :: Some (Str "x") :: Some (Int 5) :: nil)
                     (Some 4%nat) (enter busy_state))
  /\ observable (posacs_setenv 2 (Some (Str "HOME") :: Some (Str "x") :: nil) NULL
                   (enter home_state))
     = observable (posacs_setenv 3 (Some (Str "HOME") :: Some (Str "x") :: Some (Int 5) :: nil)
                     (Some 4%nat) (enter busy_state)).
Proof.
  pose proof (posacs_results_depend_on_declared_arguments
                1 3 NULL (Some 4%nat)
                (Some (Str "HOME") :: Some (Str "x") :: nil)
                (Some (Str "HOME") :: Some (Str "x") :: Some (Int 5) :: nil)
                home_state busy_state eq_refl eq_refl eq_refl) as [G _].
  pose proof (posacs_results_depend_on_declared_arguments
                2 3 NULL (Some 4%nat)
                (Some (Str "HOME") :: Some (Str "x") :: nil)
                (Some (Str "HOME") :: Some (Str "x") :: Some (Int 5) :: nil)
                home_state busy_state eq_refl eq_refl eq_refl) as (_ & _ & S).
  do 4 (split; [reflexivity |]). split; [exact G | exact (S eq_refl)].
Defined.

(** ** Scenarios *)

(** Set, get, unset, get: [t], the value, [t], [nil]. *)
Example scenario_set_get_unset_get :
  exists s1 s2 s3 s4,
    posacs_setenv 2 (Some (Str "FOO") :: Some (Str "bar") :: nil) NULL (enter home_state)
    = Some (Some Qt, s1)
    /\ posacs_getenv 1 (Some (Str "FOO") :: nil) NULL (enter s1)
       = Some (Some (Str "bar"), s2)
    /\ posacs_unsetenv 1 (Some (Str "FOO") :: nil) NULL (enter s2) = Some (Some Qt, s3)
    /\ posacs_getenv 1 (Some (Str "FOO") :: nil) NULL (enter s3) = Some (Some Qnil, s4).
Proof. eexists _, _, _, _. repeat split; vm_compute; reflexivity. Qed.

(** A variable that is not set reads as [nil]. *)
Example scenario_unset_variable :
  exists s',
    posacs_getenv 1 (Some (Str "DEFINITELY_UNSET_VAR_XYZ") :: nil) NULL (enter home_state)
    = Some (Some Qnil, s')
    /\ pending s' = emacs_funcall_exit_return.
Proof. eexists. split; vm_compute; reflexivity. Qed.

(** With a failing allocator, [posacs_getenv] and [posacs_setenv] return to
    the host with [memory-full] pending, and the environment as it was. *)
Example scenario_allocation_failure :
  exists s1 s2,
    posacs_getenv 1 (Some (Str "HOME") :: nil) NULL (enter oom_state) = Some (Some Qnil, s1)
    /\ pending s1 = emacs_funcall_exit_signal (Sym "memory-full") Qnil
    /\ posacs_setenv 2 (Some (Str "FOO") :: Some (Str "bar") :: nil) NULL (enter oom_state)
       = Some (Some Qnil, s2)
    /\ pending s2 = emacs_funcall_exit_signal (Sym "memory-full") Qnil
    /\ environ s2 = environ oom_state.
Proof. eexists _, _. repeat split; vm_compute; reflexivity. Qed.

(** The blocks add up: after the four calls of the first scenario the heap,
    empty at the start, holds the five strings that were marshaled. *)
Example scenario_heap_after_four_calls :
  exists s4,
    (_ <- posacs_setenv 2 (Some (Str "FOO") :: Some (Str "bar") :: nil) NULL ;;
     _ <- posacs_getenv 1 (Some (Str "FOO") :: nil) NULL ;;
     _ <- posacs_unsetenv 1 (Some (Str "FOO") :: nil) NULL ;;
     posacs_getenv 1 (Some (Str "FOO") :: nil) NULL) (enter home_state)
    = Some (Some Qnil, s4)
    /\ size (heap s4) = 5%nat.
Proof. eexists. split; vm_compute; reflexivity. Qed.

(** * Further properties *)

(** ** [string_from_lisp] *)

Lemma copy_string_contents_pending (val : emacs_value) (buf : pointer) (size : Z) (s : state) :
  ~ quiet s -> copy_string_contents val buf size s = Some ((false, size), s).
Proof.
  intros Q. unfold copy_string_contents, MODULE_FUNCTION_BEGIN, no_exit_pending.
  case_bool_decide; [contradiction | reflexivity].
Qed.

Lemma string_from_lisp_unwinding (val : emacs_value) (s : state) :
  ~ quiet s -> string_from_lisp val s = Some (NULL, s).
Proof.
  intros Q. unfold string_from_lisp.
  now rewrite (bind_Some _ _ _ _ _ (copy_string_contents_pending val NULL 0 s Q)).
Qed.

(** X1.  Whatever the value is, null handle included, [string_from_lisp] entered
    with an exit pending returns [NULL] and leaves the state as it is: it
    asks for no block and adds no signal of its own. *)
Theorem string_from_lisp_pending (val : emacs_value) (s : state) :
  pending s <> emacs_funcall_exit_return ->
  string_from_lisp val s = Some (NULL, s).
Proof.
  intros Q. unfold string_from_lisp.
  now rewrite (bind_Some _ _ _ _ _ (copy_string_contents_pending val NULL 0 s Q)).
Qed.

Lemma string_from_lisp_pending_witness :
  pending busy_state <> emacs_funcall_exit_return
  /\ string_from_lisp None busy_state = Some (NULL, busy_state)
  /\ string_from_lisp (Some (Str "HOME")) busy_state = Some (NULL, busy_state).
Proof.
  split; [discriminate |]. split.
  - apply (string_from_lisp_pending None busy_state). discriminate.
  - apply (string_from_lisp_pending (Some (Str "HOME")) busy_state). discriminate.
Defined.

Lemma string_from_lisp_not_string (o : Lisp_Object) (s : state) :
  quiet s -> is_Str o = false ->
  string_from_lisp (Some o) s
  = Some (NULL, set_pending (emacs_funcall_exit_signal (Sym "wrong-type-argument")
                               (Cons (Sym "stringp") (Cons o Qnil))) s).
Proof.
  intros Q N. unfold string_from_lisp, bind at 1, copy_string_contents, MODULE_FUNCTION_BEGIN.
  rewrite (quiet_no_exit_pending _ Q).
  destruct o; try discriminate; reflexivity.
Qed.

(** X2.  What [string_from_lisp] does to the heap.  When it returns [NULL] the
    heap is as it was at entry: the caller has nothing to free.  When it
    returns a pointer, the value is a string, the pointer is the address of
    one new block, and the block holds the bytes of the string followed by
    one NUL byte and nothing else.  In both cases the process environment is
    untouched. *)
Theorem string_from_lisp_heap (val : emacs_value) (s s' : state) (p : pointer) :
  string_from_lisp val s = Some (p, s') ->
  environ s' = environ s
  /\ match p with
     | None => heap s' = heap s
     | Some a =>
         exists b, val = Some (Str b)
                   /\ a = brk s
                   /\ heap s' = <[a := terminated b]> (heap s)
                   /\ String.length (terminated b) = S (String.length b)
                   /\ cstr (terminated b) = Some (strtrunc b)
                   /\ pending s' = emacs_funcall_exit_return
     end.
Proof.
  destruct (decide (quiet s)) as [Q|Q].
  - destruct val as [o|].
    + destruct (is_Str o) eqn:E.
      * destruct o as [| | |b| |]; try discriminate.
        destruct (next_malloc_ok s) eqn:A.
        -- rewrite string_from_lisp_ok by assumption. intros [= <- <-].
           split; [reflexivity |]. exists b. repeat split.
           ++ unfold terminated. rewrite length_append. cbn. lia.
           ++ apply cstr_terminated.
           ++ exact Q.
        -- rewrite string_from_lisp_oom by assumption. intros [= <- <-].
           split; reflexivity.
      * rewrite string_from_lisp_not_string by assumption. intros [= <- <-].
        split; reflexivity.
    + unfold string_from_lisp, bind, copy_string_contents, MODULE_FUNCTION_BEGIN.
      rewrite (quiet_no_exit_pending _ Q). discriminate.
  - rewrite string_from_lisp_unwinding by exact Q. intros [= <- <-].
    split; reflexivity.
Qed.

Lemma string_from_lisp_heap_witness :
  exists s',
    string_from_lisp (Some (Str "HOME")) home_state = Some (Some 0%nat, s')
    /\ environ s' = environ home_state
    /\ exists b, Some (Str "HOME") = Some (Str b)
                 /\ 0%nat = brk home_state
                 /\ heap s' = <[0%nat := terminated b]> (heap home_state)
                 /\ String.length (terminated b) = S (String.length b)
                 /\ cstr (terminated b) = Some (strtrunc b)
                 /\ pending s' = emacs_funcall_exit_return.
Proof.
  eexists. split; [vm_compute; reflexivity |].
  apply (string_from_lisp_heap (Some (Str "HOME")) home_state _ (Some 0%nat)).
  vm_compute; reflexivity.
Defined.

(** ** The cases of the three functions *)

Lemma posacs_getenv_cases n ptr (a : Lisp_Object) rest (s : state) :
  (is_Str a = false
   /\ posacs_getenv n (Some a :: rest) ptr (enter s) = Some (Some Qnil, enter s))
  \/ (exists k, a = Str k /\ next_malloc_ok s = false
                /\ posacs_getenv n (Some a :: rest) ptr (enter s)
                   = Some (Some Qnil, memory_full (enter s)))
  \/ (exists k, a = Str k /\ next_malloc_ok s = true
                /\ posacs_getenv n (Some a :: rest) ptr (enter s)
                   = Some (match environ_lookup (environ s) (strtrunc k) with
                           | Some v => Some (Str (strtrunc v))
                           | None => Some Qnil
                           end, with_block (terminated k) (enter s))).
Proof.
  pose proof (quiet_enter s) as Q.
  destruct (is_Str a) eqn:E.
  - destruct a as [| | |k| |]; try discriminate. right.
    destruct (next_malloc_ok s) eqn:A.
    + right. exists k. repeat (split; [first [reflexivity | assumption] |]). rewrite posacs_getenv_string by assumption; reflexivity.
    + left. exists k. repeat (split; [first [reflexivity | assumption] |]). now apply posacs_getenv_oom.
  - left. split; [reflexivity |]. now apply posacs_getenv_not_string.
Qed.

Lemma posacs_unsetenv_cases n ptr (a : Lisp_Object) rest (s : state) :
  (is_Str a = false
   /\ posacs_unsetenv n (Some a :: rest) ptr (enter s) = Some (Some Qnil, enter s))
  \/ (exists k, a = Str k /\ next_malloc_ok s = false
                /\ posacs_unsetenv n (Some a :: rest) ptr (enter s)
                   = Some (Some Qnil, memory_full (enter s)))
  \/ (exists k, a = Str k /\ next_malloc_ok s = true
                /\ valid_name (strtrunc k) = false
                /\ posacs_unsetenv n (Some a :: rest) ptr (enter s)
                   = Some (Some Qnil, with_block (terminated k) (enter s)))
  \/ (exists k, a = Str k /\ next_malloc_ok s = true
                /\ valid_name (strtrunc k) = true
                /\ posacs_unsetenv n (Some a :: rest) ptr (enter s)
                   = Some (Some Qt, set_environ (delete (strtrunc k) (environ s))
                                      (with_block (terminated k) (enter s)))).
Proof.
  pose proof (quiet_enter s) as Q.
  destruct (is_Str a) eqn:E.
  - destruct a as [| | |k| |]; try discriminate. right.
    destruct (next_malloc_ok s) eqn:A.
    + right. rewrite posacs_unsetenv_string by assumption.
      destruct (valid_name (strtrunc k)) eqn:V; [right | left]; exists k; repeat (split; [first [reflexivity | assumption] |]); reflexivity.
    + left. exists k. repeat (split; [first [reflexivity | assumption] |]). now apply posacs_unsetenv_oom.
  - left. split; [reflexivity |]. now apply posacs_unsetenv_not_string.
Qed.

Lemma posacs_setenv_cases n ptr (a b : Lisp_Object) rest (s : state) :
  (is_Str a = false
   /\ posacs_setenv n (Some a :: Some b :: rest) ptr (enter s) = Some (Some Qnil, enter s))
  \/ (exists k, a = Str k /\ next_malloc_ok s = false
                /\ posacs_setenv n (Some a :: Some b :: rest) ptr (enter s)
                   = Some (Some Qnil, memory_full (enter s)))
  \/ (exists k, a = Str k /\ next_malloc_ok s = true /\ is_Str b = false
                /\ posacs_setenv n (Some a :: Some b :: rest) ptr (enter s)
                   = Some (Some Qnil, with_block (terminated k) (enter s)))
  \/ (exists k v, a = Str k /\ b = Str v /\ next_malloc_ok s = true
                  /\ next_malloc_ok (pop_plan s) = false
                  /\ posacs_setenv n (Some a :: Some b :: rest) ptr (enter s)
                     = Some (Some Qnil, memory_full (with_block (terminated k) (enter s))))
  \/ (exists k v, a = Str k /\ b = Str v /\ next_malloc_ok s = true
                  /\ next_malloc_ok (pop_plan s) = true
                  /\ valid_name (strtrunc k) = false
                  /\ posacs_setenv n (Some a :: Some b :: rest) ptr (enter s)
                     = Some (Some Qnil,
                             with_block (terminated v) (with_block (terminated k) (enter s))))
  \/ (exists k v, a = Str k /\ b = Str v /\ next_malloc_ok s = true
                  /\ next_malloc_ok (pop_plan s) = true
                  /\ valid_name (strtrunc k) = true
                  /\ next_malloc_ok (pop_plan (pop_plan s)) = false
                  /\ posacs_setenv n (Some a :: Some b :: rest) ptr (enter s)
                     = Some (Some Qnil,
                             pop_plan (with_block (terminated v)
                                         (with_block (terminated k) (enter s)))))
  \/ (exists k v, a = Str k /\ b = Str v /\ next_malloc_ok s = true
                  /\ next_malloc_ok (pop_plan s) = true
                  /\ valid_name (strtrunc k) = true
                  /\ next_malloc_ok (pop_plan (pop_plan s)) = true
                  /\ posacs_setenv n (Some a :: Some b :: rest) ptr (enter s)
                     = Some (Some Qt,
                             set_environ (<[strtrunc k := strtrunc v]> (environ s))
                               (pop_plan (with_block (terminated v)
                                            (with_block (terminated k) (enter s)))))).
Proof.
  pose proof (quiet_enter s) as Q.
  destruct (is_Str a) eqn:E;
    [| left; split; [reflexivity | now apply posacs_setenv_not_string]].
  destruct a as [| | |k| |]; try discriminate. right.
  destruct (next_malloc_ok s) eqn:A;
    [| left; exists k; repeat (split; [first [reflexivity | assumption] |]); now apply posacs_setenv_oom].
  right. destruct (is_Str b) eqn:Eb;
    [| left; exists k; repeat (split; [first [reflexivity | assumption] |]); now apply posacs_setenv_value_not_string].
  destruct b as [| | |v| |]; try discriminate. right.
  destruct (next_malloc_ok (pop_plan s)) eqn:A'.
  - right. rewrite posacs_setenv_strings by assumption. cbv zeta.
    destruct (valid_name (strtrunc k)) eqn:V.
    + right.
      change (next_malloc_ok (with_block (terminated v)
                                (with_block (terminated k) (enter s))))
        with (next_malloc_ok (pop_plan (pop_plan s))).
      destruct (next_malloc_ok (pop_plan (pop_plan s))) eqn:A3; [right | left];
        exists k, v; repeat (split; [first [reflexivity | assumption] |]); reflexivity.
    + left. exists k, v; repeat (split; [first [reflexivity | assumption] |]); reflexivity.
  - left. exists k, v. repeat (split; [first [reflexivity | assumption] |]). now apply posacs_setenv_value_oom.
Qed.

(** ** The process environment *)

(** X3.  [posacs_getenv] reads the process environment and never changes it,
    whatever its argument is and whether or not its allocation succeeds; it
    leaves the function cells alone as well. *)
Theorem posacs_getenv_reads_only n ptr (a : Lisp_Object) rest (s : state) :
  exists r s',
    posacs_getenv n (Some a :: rest) ptr (enter s) = Some (r, s')
    /\ environ s' = environ s
    /\ fcells s' = fcells s.
Proof.
  destruct (posacs_getenv_cases n ptr a rest s)
    as [[_ E] | [(k & _ & _ & E) | (k & _ & _ & E)]];
    rewrite E; eexists _, _; repeat split.
Qed.

(** X4.  [posacs_setenv] touches one variable at most, the one named by its first
    argument up to the first NUL: every other name is bound after the call
    as it was before, whatever the second argument is and whatever the call
    returns. *)
Theorem posacs_setenv_other_names_kept n ptr (k : string) (b : Lisp_Object) rest (s : state) :
  exists r s',
    posacs_setenv n (Some (Str k) :: Some b :: rest) ptr (enter s) = Some (r, s')
    /\ forall nm, nm <> strtrunc k -> environ s' !! nm = environ s !! nm.
Proof.
  destruct (posacs_setenv_cases n ptr (Str k) b rest s)
    as [[_ E] | [(k1 & _ & _ & E) | [(k1 & _ & _ & _ & E)
       | [(k1 & v & _ & _ & _ & _ & E) | [(k1 & v & _ & _ & _ & _ & _ & E)
       | [(k1 & v & _ & _ & _ & _ & _ & _ & E)
       | (k1 & v & [= <-] & _ & _ & _ & _ & _ & E)]]]]]];
    rewrite E; eexists _, _; (split; [reflexivity |]); intros nm N;
    try reflexivity.
  cbn [environ set_environ]. now rewrite lookup_insert_ne.
Qed.

(** X5.  [posacs_unsetenv] likewise leaves every other name bound as it was. *)
Theorem posacs_unsetenv_other_names_kept n ptr (k : string) rest (s : state) :
  exists r s',
    posacs_unsetenv n (Some (Str k) :: rest) ptr (enter s) = Some (r, s')
    /\ forall nm, nm <> strtrunc k -> environ s' !! nm = environ s !! nm.
Proof.
  destruct (posacs_unsetenv_cases n ptr (Str k) rest s)
    as [[_ E] | [(k1 & _ & _ & E) | [(k1 & _ & _ & _ & E)
       | (k1 & [= <-] & _ & _ & E)]]];
    rewrite E; eexists _, _; (split; [reflexivity |]); intros nm N;
    try reflexivity.
  cbn [environ set_environ]. now rewrite lookup_delete_ne.
Qed.

(** X6.  When both marshaling allocations succeed, [posacs_setenv] on two
    strings returns [t] exactly when the name, taken up to its first NUL, is
    not empty and has no ['='] and the allocation of [setenv] itself
    succeeds: then the name is bound to the value taken up to its first NUL.
    Otherwise, for a name that [setenv] refuses or when [setenv] runs out of
    memory, it returns [nil] and the environment is unchanged.  In all cases
    no exit is pending. *)
Theorem posacs_setenv_success_condition n ptr (k v : string) rest (s : state) :
  next_malloc_ok s = true ->
  next_malloc_ok (pop_plan s) = true ->
  exists s',
    posacs_setenv n (Some (Str k) :: Some (Str v) :: rest) ptr (enter s)
    = Some (Some (if valid_name (strtrunc k) && next_malloc_ok (pop_plan (pop_plan s))
                  then Qt else Qnil), s')
    /\ environ s' = (if valid_name (strtrunc k) && next_malloc_ok (pop_plan (pop_plan s))
                     then <[strtrunc k := strtrunc v]> (environ s)
                     else environ s)
    /\ pending s' = emacs_funcall_exit_return.
Proof.
  intros A A'. rewrite posacs_setenv_strings by (apply quiet_enter || assumption).
  cbv zeta.
  change (next_malloc_ok (with_block (terminated v)
                            (with_block (terminated k) (enter s))))
    with (next_malloc_ok (pop_plan (pop_plan s))).
  destruct (valid_name (strtrunc k)); cbn [andb];
    [destruct (next_malloc_ok (pop_plan (pop_plan s))) |]; eexists; repeat split.
Qed.

Lemma posacs_setenv_success_condition_witness :
  next_malloc_ok home_state = true
  /\ next_malloc_ok (pop_plan home_state) = true
  /\ (exists s',
        posacs_setenv 2 (Some (Str "FOO") :: Some (Str "bar") :: nil) NULL (enter home_state)
        = Some (Some Qt, s')
        /\ environ s' = <["FOO" := "bar"]> (environ home_state)
        /\ pending s' = emacs_funcall_exit_return)
  /\ (exists s',
        posacs_setenv 2 (Some (Str "") :: Some (Str "bar") :: nil) NULL (enter home_state)
        = Some (Some Qnil, s')
        /\ environ s' = environ home_state
        /\ pending s' = emacs_funcall_exit_return)
  /\ next_malloc_ok enomem_state = true
  /\ next_malloc_ok (pop_plan enomem_state) = true
  /\ next_malloc_ok (pop_plan (pop_plan enomem_state)) = false
  /\ (exists s',
        posacs_setenv 2 (Some (Str "FOO") :: Some (Str "bar") :: nil) NULL (enter enomem_state)
        = Some (Some Qnil, s')
        /\ environ s' = environ enomem_state
        /\ pending s' = emacs_funcall_exit_return).
Proof.
  split; [reflexivity |]. split; [reflexivity |].
  split; [exact (posacs_setenv_success_condition 2 NULL "FOO" "bar" nil home_state
                   eq_refl eq_refl) |].
  split; [exact (posacs_setenv_success_condition 2 NULL "" "bar" nil home_state
                   eq_refl eq_refl) |].
  split; [reflexivity |]. split; [reflexivity |]. split; [reflexivity |].
  exact (posacs_setenv_success_condition 2 NULL "FOO" "bar" nil enomem_state
           eq_refl eq_refl).
Defined.

(** X7.  When its allocation succeeds, [posacs_unsetenv] on a string returns [t]
    exactly when the name, taken up to its first NUL, is not empty and has
    no ['='], whether or not the name was bound: then the name is unbound
    after the call, and an environment that did not bind it is unchanged.
    Otherwise it returns [nil] and the environment is unchanged. *)
Theorem posacs_unsetenv_succeeds_iff_valid_name n ptr (k : string) rest (s : state) :
  next_malloc_ok s = true ->
  exists s',
    posacs_unsetenv n (Some (Str k) :: rest) ptr (enter s)
    = Some (Some (if valid_name (strtrunc k) then Qt else Qnil), s')
    /\ environ s' = (if valid_name (strtrunc k)
                     then delete (strtrunc k) (environ s)
                     else environ s)
    /\ (environ s !! strtrunc k = None -> environ s' = environ s)
    /\ pending s' = emacs_funcall_exit_return.
Proof.
  intros A. rewrite posacs_unsetenv_string by (apply quiet_enter || assumption).
  destruct (valid_name (strtrunc k)); eexists; repeat split.
  intros U. cbn [environ set_environ with_block enter set_pending].
  now apply delete_id.
Qed.

Lemma posacs_unsetenv_succeeds_iff_valid_name_witness :
  next_malloc_ok home_state = true
  /\ environ home_state !! strtrunc "NOT_SET" = None
  /\ exists s',
      posacs_unsetenv 1 (Some (Str "NOT_SET") :: nil) NULL (enter home_state)
      = Some (Some (if valid_name (strtrunc "NOT_SET") then Qt else Qnil), s')
      /\ environ s' = (if valid_name (strtrunc "NOT_SET")
                       then delete (strtrunc "NOT_SET") (environ home_state)
                       else environ home_state)
      /\ (environ home_state !! strtrunc "NOT_SET" = None -> environ s' = environ home_state)
      /\ pending s' = emacs_funcall_exit_return.
Proof.
  split; [reflexivity |]. split; [vm_compute; reflexivity |].
  apply (posacs_unsetenv_succeeds_iff_valid_name 1 NULL "NOT_SET" nil home_state).
  reflexivity.
Defined.

Lemma posacs_setenv_t_environ n ptr k v rest (s s1 : state) :
  posacs_setenv n (Some (Str k) :: Some (Str v) :: rest) ptr (enter s)
  = Some (Some Qt, s1) ->
  valid_name (strtrunc k) = true
  /\ environ s1 = <[strtrunc k := strtrunc v]> (environ s)
  /\ pending s1 = emacs_funcall_exit_return.
Proof.
  destruct (posacs_setenv_cases n ptr (Str k) (Str v) rest s)
    as [[_ E] | [(k1 & _ & _ & E) | [(k1 & _ & _ & _ & E)
       | [(k1 & v1 & _ & _ & _ & _ & E) | [(k1 & v1 & _ & _ & _ & _ & _ & E)
       | [(k1 & v1 & _ & _ & _ & _ & _ & _ & E)
       | (k1 & v1 & [= <-] & [= <-] & _ & _ & V & _ & E)]]]]]];
    rewrite E; intros [= ?]; subst. repeat split. exact V.
Qed.

Lemma posacs_unsetenv_t_environ n ptr k rest (s s1 : state) :
  posacs_unsetenv n (Some (Str k) :: rest) ptr (enter s) = Some (Some Qt, s1) ->
  valid_name (strtrunc k) = true
  /\ environ s1 = delete (strtrunc k) (environ s)
  /\ pending s1 = emacs_funcall_exit_return.
Proof.
  destruct (posacs_unsetenv_cases n ptr (Str k) rest s)
    as [[_ E] | [(k1 & _ & _ & E) | [(k1 & _ & _ & _ & E)
       | (k1 & [= <-] & _ & V & E)]]];
    rewrite E; intros [= ?]; subst. repeat split. exact V.
Qed.

(** X8.  Setting a variable that was not bound and then unsetting it, both calls
    returning [t], gives back the process environment of the start. *)
Theorem posacs_setenv_unsetenv_restores
    (n n' : Z) (ptr ptr' : pointer) (k v : string) (s s1 s2 : state) :
  environ s !! strtrunc k = None ->
  posacs_setenv n (Some (Str k) :: Some (Str v) :: nil) ptr (enter s) = Some (Some Qt, s1) ->
  posacs_unsetenv n' (Some (Str k) :: nil) ptr' (enter s1) = Some (Some Qt, s2) ->
  environ s2 = environ s.
Proof.
  intros U E1 E2.
  destruct (posacs_setenv_t_environ _ _ _ _ _ _ _ E1) as (_ & H1 & _).
  destruct (posacs_unsetenv_t_environ _ _ _ _ _ _ E2) as (_ & H2 & _).
  rewrite H2, H1. now apply delete_insert_id.
Qed.

Lemma posacs_setenv_unsetenv_restores_witness :
  exists s1 s2,
    environ home_state !! strtrunc "FOO" = None
    /\ posacs_setenv 2 (Some (Str "FOO") :: Some (Str "bar") :: nil) NULL (enter home_state)
       = Some (Some Qt, s1)
    /\ posacs_unsetenv 1 (Some (Str "FOO") :: nil) NULL (enter s1) = Some (Some Qt, s2)
    /\ environ s2 = environ home_state.
Proof.
  eexists _, _.
  split; [vm_compute; reflexivity |].
  split; [vm_compute; reflexivity |].
  split; [vm_compute; reflexivity |].
  eapply (posacs_setenv_unsetenv_restores 2 1 NULL NULL "FOO" "bar" home_state);
    vm_compute; reflexivity.
Defined.

(** X9.  Names count up to their first NUL byte.  After [posacs_setenv] on [k] and
    [v] has returned [t], [posacs_getenv] on any string [k'] that agrees with
    [k] up to the first NUL returns the bytes of [v] up to its first NUL,
    when its allocation succeeds. *)
Theorem posacs_getenv_name_up_to_nul
    (n n' : Z) (ptr ptr' : pointer) (k k' v : string) (s s1 : state) :
  posacs_setenv n (Some (Str k) :: Some (Str v) :: nil) ptr (enter s) = Some (Some Qt, s1) ->
  strtrunc k' = strtrunc k ->
  next_malloc_ok s1 = true ->
  exists s2,
    posacs_getenv n' (Some (Str k') :: nil) ptr' (enter s1)
    = Some (Some (Str (strtrunc v)), s2).
Proof.
  intros E K A.
  pose proof (posacs_setenv_t_binds _ _ _ _ _ _ _ E) as B. rewrite <- K in B.
  pose proof (posacs_setenv_t_valid _ _ _ _ _ _ _ E) as V. rewrite <- K in V.
  destruct (posacs_getenv_bound n' ptr' k' (strtrunc v) nil s1 V B A) as [s2 G].
  exists s2. now rewrite G, strtrunc_idem.
Qed.

Lemma posacs_getenv_name_up_to_nul_witness :
  exists s1,
    posacs_setenv 2 (Some (Str "K") :: Some (Str a_nul_b) :: nil) NULL (enter home_state)
    = Some (Some Qt, s1)
    /\ strtrunc (String "K" (String NUL "junk")) = strtrunc "K"
    /\ next_malloc_ok s1 = true
    /\ exists s2,
        posacs_getenv 1 (Some (Str (String "K" (String NUL "junk"))) :: nil) NULL (enter s1)
        = Some (Some (Str (strtrunc a_nul_b)), s2).
Proof.
  eexists. split; [vm_compute; reflexivity |].
  split; [reflexivity |]. split; [reflexivity |].
  eapply (posacs_getenv_name_up_to_nul 2 1 NULL NULL "K" (String "K" (String NUL "junk"))
            a_nul_b home_state);
    [vm_compute; reflexivity | reflexivity | reflexivity].
Defined.

(** ** Invariants *)

Lemma environ_wf_insert (k v : string) (s s' : state) :
  environ_wf s ->
  valid_name (strtrunc k) = true ->
  environ s' = <[strtrunc k := strtrunc v]> (environ s) ->
  environ_wf s'.
Proof.
  intros W V E nm w. rewrite E, lookup_insert_Some.
  intros [[<- <-] | [_ H]]; [| exact (W _ _ H)].
  split; [exact V |]. split; apply has_byte_strtrunc.
Qed.

Lemma environ_wf_delete (k : string) (s s' : state) :
  environ_wf s ->
  environ s' = delete k (environ s) ->
  environ_wf s'.
Proof.
  intros W E nm w. rewrite E, lookup_delete_Some. intros [_ H]. exact (W _ _ H).
Qed.

Lemma environ_wf_same (s s' : state) :
  environ_wf s -> environ s' = environ s -> environ_wf s'.
Proof. intros W E nm w. rewrite E. apply W. Qed.

(** X10.  The three functions keep the process environment well formed: if every
    name is one that [setenv] accepts and no name or value has a NUL byte,
    the same holds after any call, whatever the arguments are and whatever
    the call returns. *)
Theorem posacs_keep_environ_wf n ptr (a b : Lisp_Object) rest (s : state) :
  environ_wf s ->
  (exists r s', posacs_getenv n (Some a :: rest) ptr (enter s) = Some (r, s')
                /\ environ_wf s')
  /\ (exists r s', posacs_setenv n (Some a :: Some b :: rest) ptr (enter s) = Some (r, s')
                   /\ environ_wf s')
  /\ (exists r s', posacs_unsetenv n (Some a :: rest) ptr (enter s) = Some (r, s')
                   /\ environ_wf s').
Proof.
  intros W. split; [| split].
  - destruct (posacs_getenv_cases n ptr a rest s)
      as [[_ E] | [(k & _ & _ & E) | (k & _ & _ & E)]];
      rewrite E; eexists _, _; (split; [reflexivity |]);
      (apply (environ_wf_same s); [exact W | reflexivity]).
  - destruct (posacs_setenv_cases n ptr a b rest s)
      as [[_ E] | [(k1 & _ & _ & E) | [(k1 & _ & _ & _ & E)
         | [(k1 & v & _ & _ & _ & _ & E) | [(k1 & v & _ & _ & _ & _ & _ & E)
         | [(k1 & v & _ & _ & _ & _ & _ & _ & E)
         | (k1 & v & _ & _ & _ & _ & V & _ & E)]]]]]];
      rewrite E; eexists _, _; (split; [reflexivity |]);
      try (apply (environ_wf_same s); [exact W | reflexivity]).
    now apply (environ_wf_insert k1 v s).
  - destruct (posacs_unsetenv_cases n ptr a rest s)
      as [[_ E] | [(k1 & _ & _ & E) | [(k1 & _ & _ & _ & E)
         | (k1 & _ & _ & V & E)]]];
      rewrite E; eexists _, _; (split; [reflexivity |]);
      try (apply (environ_wf_same s); [exact W | reflexivity]).
    now apply (environ_wf_delete (strtrunc k1) s).
Qed.

Lemma environ_wf_home_state : environ_wf home_state.
Proof.
  intros nm v. unfold home_state. cbn [environ]. intros H.
  apply lookup_singleton_Some in H as [<- <-]. repeat split.
Defined.

Lemma posacs_keep_environ_wf_witness :
  environ_wf home_state
  /\ exists r s',
      posacs_setenv 2 (Some (Str "K") :: Some (Str a_nul_b) :: nil) NULL (enter home_state)
      = Some (r, s')
      /\ environ_wf s'.
Proof.
  split; [exact environ_wf_home_state |].
  exact (proj1 (proj2 (posacs_keep_environ_wf 2 NULL (Str "K") (Str a_nul_b) nil home_state
                         environ_wf_home_state))).
Defined.

(** X11.  In a well-formed process environment [posacs_getenv] returns the value
    of a bound name byte for byte, when its allocation succeeds. *)
Theorem posacs_getenv_exact_value n ptr (k v : string) rest (s : state) :
  environ_wf s ->
  environ s !! strtrunc k = Some v ->
  next_malloc_ok s = true ->
  exists s', posacs_getenv n (Some (Str k) :: rest) ptr (enter s) = Some (Some (Str v), s').
Proof.
  intros W B A. destruct (W _ _ B) as (V & _ & Z).
  destruct (posacs_getenv_bound n ptr k v rest s V B A) as [s' G].
  exists s'. rewrite G. now rewrite (strtrunc_no_nul v Z).
Qed.

Lemma posacs_getenv_exact_value_witness :
  environ_wf home_state
  /\ environ home_state !! strtrunc "HOME" = Some "/root"
  /\ next_malloc_ok home_state = true
  /\ exists s', posacs_getenv 1 (Some (Str "HOME") :: nil) NULL (enter home_state)
                = Some (Some (Str "/root"), s').
Proof.
  split; [exact environ_wf_home_state |].
  split; [vm_compute; reflexivity |]. split; [reflexivity |].
  apply (posacs_getenv_exact_value 1 NULL "HOME" "/root" nil home_state
           environ_wf_home_state); [vm_compute; reflexivity | reflexivity].
Defined.

Lemma heap_wf_with_block (bytes : string) (s : state) :
  heap_wf s ->
  heap_wf (with_block bytes s)
  /\ forall a blk, heap s !! a = Some blk -> heap (with_block bytes s) !! a = Some blk.
Proof.
  intros W. split.
  - intros a blk. cbn [heap brk with_block]. rewrite lookup_insert_Some.
    intros [[<- _] | [_ H]]; [lia | pose proof (W _ _ H); lia].
  - intros a blk H. cbn [heap with_block]. pose proof (W _ _ H).
    rewrite lookup_insert_ne by lia. exact H.
Qed.

Lemma heap_wf_two_blocks (b1 b2 : string) (s : state) :
  heap_wf s ->
  heap_wf (with_block b2 (with_block b1 s))
  /\ forall a blk, heap s !! a = Some blk ->
                   heap (with_block b2 (with_block b1 s)) !! a = Some blk.
Proof.
  intros W. destruct (heap_wf_with_block b1 s W) as [W1 F1].
  destruct (heap_wf_with_block b2 _ W1) as [W2 F2]. split; [exact W2 |].
  intros a blk H. apply F2, F1, H.
Qed.

(** X12.  A heap is kept as the functions find it, new blocks apart.  When the
    live blocks lie below the next address at entry, so they do at return,
    and every block that was live at entry is live at return with the bytes
    it had: the functions free and overwrite nothing that they did not
    allocate, and they are never stuck. *)
Theorem posacs_keep_live_blocks n ptr (a b : Lisp_Object) rest (s : state) :
  heap_wf s ->
  (exists r s', posacs_getenv n (Some a :: rest) ptr (enter s) = Some (r, s')
                /\ heap_wf s'
                /\ forall p blk, heap s !! p = Some blk -> heap s' !! p = Some blk)
  /\ (exists r s', posacs_setenv n (Some a :: Some b :: rest) ptr (enter s) = Some (r, s')
                   /\ heap_wf s'
                   /\ forall p blk, heap s !! p = Some blk -> heap s' !! p = Some blk)
  /\ (exists r s', posacs_unsetenv n (Some a :: rest) ptr (enter s) = Some (r, s')
                   /\ heap_wf s'
                   /\ forall p blk, heap s !! p = Some blk -> heap s' !! p = Some blk).
Proof.
  intros W.
  assert (We : heap_wf (enter s)) by exact W.
  assert (K0 : forall s0 : state,
             heap s0 = heap s -> brk s0 = brk s ->
             heap_wf s0 /\ forall p blk, heap s !! p = Some blk -> heap s0 !! p = Some blk).
  { intros s0 Hh Hb. split.
    - intros p blk. rewrite Hh, Hb. apply W.
    - intros p blk. now rewrite Hh. }
  split; [| split].
  - destruct (posacs_getenv_cases n ptr a rest s)
      as [[_ E] | [(k & _ & _ & E) | (k & _ & _ & E)]];
      rewrite E; eexists _, _; (split; [reflexivity |]).
    + now apply K0.
    + now apply K0.
    + apply (heap_wf_with_block _ _ We).
  - destruct (posacs_setenv_cases n ptr a b rest s)
      as [[_ E] | [(k1 & _ & _ & E) | [(k1 & _ & _ & _ & E)
         | [(k1 & v & _ & _ & _ & _ & E) | [(k1 & v & _ & _ & _ & _ & _ & E)
         | [(k1 & v & _ & _ & _ & _ & _ & _ & E)
         | (k1 & v & _ & _ & _ & _ & V & _ & E)]]]]]];
      rewrite E; eexists _, _; (split; [reflexivity |]).
    + now apply K0.
    + now apply K0.
    + apply (heap_wf_with_block _ _ We).
    + apply (heap_wf_with_block (terminated k1) _ We).
    + apply (heap_wf_two_blocks _ _ _ We).
    + exact (heap_wf_two_blocks (terminated k1) (terminated v) _ We).
    + exact (heap_wf_two_blocks (terminated k1) (terminated v) _ We).
  - destruct (posacs_unsetenv_cases n ptr a rest s)
      as [[_ E] | [(k1 & _ & _ & E) | [(k1 & _ & _ & _ & E)
         | (k1 & _ & _ & V & E)]]];
      rewrite E; eexists _, _; (split; [reflexivity |]).
    + now apply K0.
    + now apply K0.
    + apply (heap_wf_with_block _ _ We).
    + apply (heap_wf_with_block (terminated k1) _ We).
Qed.

Lemma heap_wf_two_vars_state : heap_wf two_vars_state.
Proof.
  intros a blk. unfold two_vars_state. cbn [heap brk]. intros H.
  apply lookup_singleton_Some in H as [<- _]. lia.
Defined.

Lemma posacs_keep_live_blocks_witness :
  heap_wf two_vars_state
  /\ exists r s',
      posacs_setenv 2 (Some (Str "FOO") :: Some (Str "bar") :: nil) NULL (enter two_vars_state)
      = Some (r, s')
      /\ heap_wf s'
      /\ forall p blk, heap two_vars_state !! p = Some blk -> heap s' !! p = Some blk.
Proof.
  split; [exact heap_wf_two_vars_state |].
  exact (proj1 (proj2 (posacs_keep_live_blocks 2 NULL (Str "FOO") (Str "bar") nil
                         two_vars_state heap_wf_two_vars_state))).
Defined.

(** ** A call entered with an exit pending *)

Lemma intern_pending (nm : string) (s : state) :
  ~ quiet s -> intern nm s = Some (None, s).
Proof.
  intros Q. unfold intern, MODULE_FUNCTION_BEGIN, no_exit_pending.
  case_bool_decide; [contradiction | reflexivity].
Qed.

Lemma LISP_IS_STRING_pending (v : emacs_value) (s : state) :
  ~ quiet s -> LISP_IS_STRING v s = Some (false, s).
Proof.
  intros Q.
  assert (P : no_exit_pending s = false)
    by (unfold no_exit_pending; case_bool_decide; [contradiction | reflexivity]).
  unfold LISP_IS_STRING, bind, type_of, eq, intern, MODULE_FUNCTION_BEGIN.
  rewrite P. cbv beta iota. rewrite P. cbv beta iota. now rewrite P.
Qed.

(** X13.  Were one of the three functions entered while an exit is pending, it
    would return the null handle, not [nil], and leave the whole state as it
    is: no allocation, no change of the environment, for any first argument,
    the null handle included. *)
Theorem posacs_do_nothing_while_exit_pending n ptr (v : emacs_value) rest (s : state) :
  pending s <> emacs_funcall_exit_return ->
  posacs_getenv n (v :: rest) ptr s = Some (None, s)
  /\ posacs_setenv n (v :: rest) ptr s = Some (None, s)
  /\ posacs_unsetenv n (v :: rest) ptr s = Some (None, s).
Proof.
  intros Q. split; [| split].
  - open_body posacs_getenv. exec (intern_pending "nil" s Q).
    exec (LISP_IS_STRING_pending v s Q). reflexivity.
  - open_body posacs_setenv. exec (intern_pending "nil" s Q).
    exec (LISP_IS_STRING_pending v s Q). reflexivity.
  - open_body posacs_unsetenv. exec (intern_pending "nil" s Q).
    exec (LISP_IS_STRING_pending v s Q). reflexivity.
Qed.

Lemma posacs_do_nothing_while_exit_pending_witness :
  pending busy_state <> emacs_funcall_exit_return
  /\ posacs_setenv 2 (Some (Str "FOO") :: Some (Str "bar") :: nil) NULL busy_state
     = Some (None, busy_state).
Proof.
  split; [discriminate |].
  apply (proj1 (proj2 (posacs_do_nothing_while_exit_pending
                         2 NULL (Some (Str "FOO")) (Some (Str "bar") :: nil) busy_state
                         ltac:(discriminate)))).
Defined.

(** ** Registration, further *)

Lemma no_exit_pending_false (s : state) :
  pending s <> emacs_funcall_exit_return -> no_exit_pending s = false.
Proof. intros Q. unfold no_exit_pending. case_bool_decide; [contradiction | reflexivity]. Qed.

Lemma with_posacs_functions_idem (f : gmap string Lisp_Object) :
  with_posacs_functions (with_posacs_functions f) = with_posacs_functions f.
Proof.
  apply map_eq. intros i. unfold with_posacs_functions.
  rewrite !lookup_insert. repeat case_decide; reflexivity.
Qed.

Lemma emacs_module_init_binds (sizeof_emacs_runtime sizeof_emacs_env : Z)
    (runtime : emacs_runtime) (s : state) :
  quiet s ->
  sizeof_emacs_runtime <= to_size_t (rt_size runtime) ->
  sizeof_emacs_env <= to_size_t (env_size s) ->
  emacs_module_init sizeof_emacs_runtime sizeof_emacs_env runtime s
  = Some (0, set_fcells (with_posacs_functions (fcells s)) s).
Proof.
  intros Q G G'. unfold emacs_module_init.
  case_decide; [lia |]. unfold bind at 1, get_state. case_decide; [lia |].
  now rewrite (bind_Some _ _ _ _ _ (bind_funcs_table _ Q)).
Qed.

(** X15.  Loading twice is loading once: when both sizes pass, a second run of
    [emacs_module_init] returns 0 again and leaves the state that the first
    run left, function cells included. *)
Theorem emacs_module_init_twice
    (sizeof_emacs_runtime sizeof_emacs_env : Z) (runtime : emacs_runtime) (s : state) :
  0 <= rt_size runtime <= PTRDIFF_MAX ->
  0 <= env_size s <= PTRDIFF_MAX ->
  sizeof_emacs_runtime <= rt_size runtime ->
  sizeof_emacs_env <= env_size s ->
  exists s1,
    emacs_module_init sizeof_emacs_runtime sizeof_emacs_env runtime (enter s) = Some (0, s1)
    /\ emacs_module_init sizeof_emacs_runtime sizeof_emacs_env runtime (enter s1)
       = Some (0, s1).
Proof.
  intros Rr Re G G'.
  assert (G1 : sizeof_emacs_runtime <= to_size_t (rt_size runtime))
    by now rewrite to_size_t_nonneg.
  assert (G2 : sizeof_emacs_env <= to_size_t (env_size s))
    by now rewrite to_size_t_nonneg.
  eexists. split.
  - apply emacs_module_init_binds; [apply quiet_enter | exact G1 | exact G2].
  - rewrite emacs_module_init_binds; [| reflexivity | exact G1 | exact G2].
    cbn [fcells set_fcells enter set_pending]. unfold set_fcells, enter, set_pending.
    cbn. now rewrite with_posacs_functions_idem.
Qed.

Lemma emacs_module_init_twice_witness :
  (0 <= 24 <= PTRDIFF_MAX /\ 0 <= 200 <= PTRDIFF_MAX)
  /\ exists s1,
      emacs_module_init 24 200 (mkRuntime 24) (enter load_state) = Some (0, s1)
      /\ emacs_module_init 24 200 (mkRuntime 24) (enter s1) = Some (0, s1).
Proof.
  assert (R24 : 0 <= 24 <= PTRDIFF_MAX) by (unfold PTRDIFF_MAX; lia).
  assert (R200 : 0 <= 200 <= PTRDIFF_MAX) by (unfold PTRDIFF_MAX; lia).
  split; [auto |].
  apply (emacs_module_init_twice 24 200 (mkRuntime 24) load_state R24 R200);
    cbn; lia.
Defined.

(** X16.  The comparisons of [emacs_module_init] are made on [size_t], where
    a negative [size] is a value of at least [2 ^ 63] and so is not below an
    expected size of up to [2 ^ 63].  With a negative size of the runtime
    the function never returns 1: it returns 2 when the size of the
    environment is not negative and below the expected one, and otherwise
    binds the three functions and returns 0.  With a size of the runtime
    that passes and a negative size of the environment it binds and
    returns 0. *)
Theorem emacs_module_init_negative_size
    (sizeof_emacs_runtime sizeof_emacs_env : Z) (runtime : emacs_runtime) (s : state) :
  sizeof_emacs_runtime <= 2 ^ 63 ->
  sizeof_emacs_env <= 2 ^ 63 ->
  (- 2 ^ 63 <= rt_size runtime < 0 ->
   0 <= env_size s <= PTRDIFF_MAX ->
   env_size s < sizeof_emacs_env ->
   emacs_module_init sizeof_emacs_runtime sizeof_emacs_env runtime (enter s)
   = Some (2, enter s))
  /\ (- 2 ^ 63 <= rt_size runtime < 0 ->
      0 <= env_size s <= PTRDIFF_MAX ->
      sizeof_emacs_env <= env_size s ->
      emacs_module_init sizeof_emacs_runtime sizeof_emacs_env runtime (enter s)
      = Some (0, set_fcells (with_posacs_functions (fcells s)) (enter s)))
  /\ (- 2 ^ 63 <= rt_size runtime < 0 ->
      - 2 ^ 63 <= env_size s < 0 ->
      emacs_module_init sizeof_emacs_runtime sizeof_emacs_env runtime (enter s)
      = Some (0, set_fcells (with_posacs_functions (fcells s)) (enter s)))
  /\ (0 <= rt_size runtime <= PTRDIFF_MAX ->
      sizeof_emacs_runtime <= rt_size runtime ->
      - 2 ^ 63 <= env_size s < 0 ->
      emacs_module_init sizeof_emacs_runtime sizeof_emacs_env runtime (enter s)
      = Some (0, set_fcells (with_posacs_functions (fcells s)) (enter s))).
Proof.
  intros G G'.
  assert (C : forall z, - 2 ^ 63 <= z < 0 -> 2 ^ 63 <= to_size_t z).
  { intros z Hz. unfold to_size_t.
    replace z with (z + 2 ^ 64 + (-1) * 2 ^ 64) by lia.
    rewrite Z.mod_add by lia. rewrite Z.mod_small by lia. lia. }
  split; [| split; [| split]].
  - intros Rr Re L. pose proof (C _ Rr). unfold emacs_module_init.
    case_decide; [lia |]. unfold bind, get_state.
    change (env_size (enter s)) with (env_size s). rewrite (to_size_t_nonneg _ Re).
    case_decide; [reflexivity | lia].
  - intros Rr Re L. pose proof (C _ Rr).
    rewrite emacs_module_init_binds; [reflexivity | apply quiet_enter | lia |].
    change (env_size (enter s)) with (env_size s). now rewrite (to_size_t_nonneg _ Re).
  - intros Rr Re. pose proof (C _ Rr). pose proof (C _ Re).
    rewrite emacs_module_init_binds; [reflexivity | apply quiet_enter | lia |].
    change (env_size (enter s)) with (env_size s). lia.
  - intros Rr L Re. pose proof (C _ Re).
    rewrite emacs_module_init_binds; [reflexivity | apply quiet_enter | |].
    + now rewrite (to_size_t_nonneg _ Rr).
    + change (env_size (enter s)) with (env_size s). lia.
Qed.

Lemma emacs_module_init_negative_size_witness :
  (320 <= 2 ^ 63 /\ 24 <= 2 ^ 63 /\ - 2 ^ 63 <= -1 < 0
   /\ 0 <= 8 <= PTRDIFF_MAX /\ 0 <= 320 <= PTRDIFF_MAX /\ 0 <= 24 <= PTRDIFF_MAX)
  /\ emacs_module_init 24 320 (mkRuntime (-1)) (enter small_env_state)
     = Some (2, enter small_env_state)
  /\ emacs_module_init 24 320 (mkRuntime (-1)) (enter large_env_state)
     = Some (0, set_fcells (with_posacs_functions (fcells large_env_state))
                  (enter large_env_state))
  /\ emacs_module_init 24 320 (mkRuntime (-1)) (enter negative_size_state)
     = Some (0, set_fcells (with_posacs_functions (fcells negative_size_state))
                  (enter negative_size_state))
  /\ emacs_module_init 24 320 (mkRuntime 24) (enter negative_size_state)
     = Some (0, set_fcells (with_posacs_functions (fcells negative_size_state))
                  (enter negative_size_state)).
Proof.
  assert (R8 : 0 <= 8 <= PTRDIFF_MAX) by (unfold PTRDIFF_MAX; lia).
  assert (R320 : 0 <= 320 <= PTRDIFF_MAX) by (unfold PTRDIFF_MAX; lia).
  assert (R24 : 0 <= 24 <= PTRDIFF_MAX) by (unfold PTRDIFF_MAX; lia).
  assert (G : 24 <= 2 ^ 63) by lia.
  assert (G' : 320 <= 2 ^ 63) by lia.
  assert (N : - 2 ^ 63 <= -1 < 0) by lia.
  split; [repeat split; solve [lia | apply R8 | apply R320 | apply R24] |].
  split; [apply (proj1 (emacs_module_init_negative_size
                          24 320 (mkRuntime (-1)) small_env_state G G'));
          [exact N | exact R8 | cbn; lia] |].
  split; [apply (proj1 (proj2 (emacs_module_init_negative_size
                                 24 320 (mkRuntime (-1)) large_env_state G G')));
          [exact N | exact R320 | cbn; lia] |].
  split; [apply (proj1 (proj2 (proj2 (emacs_module_init_negative_size
                                        24 320 (mkRuntime (-1)) negative_size_state G G'))));
          [exact N | exact N] |].
  apply (proj2 (proj2 (proj2 (emacs_module_init_negative_size
                                24 320 (mkRuntime 24) negative_size_state G G'))));
    [exact R24 | cbn; lia | exact N].
Defined.

(** X17.  [bind_func] reports nothing to its caller.  With an arity that the host
    rejects it returns as usual, having bound nothing and left the host's
    [invalid-arity] pending; the name [nil] is refused by [fset] in the same
    way; and entered with an exit pending it changes nothing at all.  A
    maximum of [emacs_variadic_function] is accepted. *)
Theorem bind_func_failures
    (nm : string) (min max : Z) (f : module_fn) (doc : string) (s : state) :
  (pending s = emacs_funcall_exit_return ->
   (min < 0 \/ (max < min /\ max <> emacs_variadic_function)) ->
   bind_func nm min max f doc s
   = Some (tt, set_pending (emacs_funcall_exit_signal (Sym "invalid-arity")
                              (Cons (Int min) (Int max))) s))
  /\ (pending s = emacs_funcall_exit_return ->
      0 <= min -> (min <= max \/ max = emacs_variadic_function) ->
      bind_func "nil" min max f doc s
      = Some (tt, set_pending (emacs_funcall_exit_signal (Sym "setting-constant")
                                 (Cons Qnil Qnil)) s))
  /\ (pending s = emacs_funcall_exit_return ->
      nm <> "nil" -> 0 <= min -> max = emacs_variadic_function ->
      bind_func nm min max f doc s
      = Some (tt, set_fcells (<[nm := Func min max f doc]> (fcells s)) s))
  /\ (pending s <> emacs_funcall_exit_return ->
      bind_func nm min max f doc s = Some (tt, s)).
Proof.
  split; [| split; [| split]].
  - intros Q B. unfold bind_func, LISP_SYM, bind, pure. cbv beta iota.
    exec (intern_quiet "fset" s Q). exec (intern_quiet nm s Q).
    unfold make_function, MODULE_FUNCTION_BEGIN.
    rewrite (quiet_no_exit_pending _ Q).
    assert (V : Z.leb 0 min && (if Z.ltb max 0 then Z.eqb max emacs_variadic_function
                                else Z.leb min max) = false).
    { unfold emacs_variadic_function in *.
      destruct (Z.leb_spec 0 min); [| reflexivity]. cbn [andb].
      destruct (Z.ltb_spec max 0).
      - apply Z.eqb_neq. lia.
      - apply Z.leb_gt. lia. }
    rewrite V. unfold bind, xsignal, modify, pure. cbv beta iota.
    unfold funcall, MODULE_FUNCTION_BEGIN. reflexivity.
  - intros Q R V. unfold bind_func, LISP_SYM, bind, pure. cbv beta iota.
    exec (intern_quiet "fset" s Q). exec (intern_quiet "nil" s Q).
    unfold make_function, MODULE_FUNCTION_BEGIN.
    rewrite (quiet_no_exit_pending _ Q).
    assert (V' : Z.leb 0 min && (if Z.ltb max 0 then Z.eqb max emacs_variadic_function
                                 else Z.leb min max) = true).
    { unfold emacs_variadic_function in *.
      replace (Z.leb 0 min) with true by (symmetry; apply Z.leb_le; lia). cbn [andb].
      destruct (Z.ltb_spec max 0).
      - apply Z.eqb_eq. lia.
      - apply Z.leb_le. lia. }
    rewrite V'. unfold pure. cbv beta iota.
    unfold funcall, MODULE_FUNCTION_BEGIN. rewrite (quiet_no_exit_pending _ Q).
    reflexivity.
  - intros Q N R ->. unfold bind_func, LISP_SYM, bind, pure. cbv beta iota.
    exec (intern_quiet "fset" s Q). exec (intern_quiet nm s Q).
    unfold make_function, MODULE_FUNCTION_BEGIN.
    rewrite (quiet_no_exit_pending _ Q).
    replace (Z.leb 0 min) with true by (symmetry; apply Z.leb_le; lia).
    cbn [andb Z.ltb Z.eqb emacs_variadic_function Z.compare Pos.compare Pos.eqb].
    unfold pure. cbv beta iota.
    unfold funcall, MODULE_FUNCTION_BEGIN. rewrite (quiet_no_exit_pending _ Q).
    unfold bind, value_to_lisp, pure. cbv beta iota.
    case_decide; [| contradiction].
    unfold Ffset. case_decide as C.
    + destruct C as [C _]. injection C as C. contradiction.
    + reflexivity.
  - intros Q. unfold bind_func, LISP_SYM, bind, pure. cbv beta iota.
    exec (intern_pending "fset" s Q). exec (intern_pending nm s Q).
    unfold make_function, funcall, MODULE_FUNCTION_BEGIN.
    rewrite (no_exit_pending_false _ Q). cbv beta iota.
    now rewrite (no_exit_pending_false _ Q).
Qed.

Lemma bind_func_failures_witness :
  pending load_state = emacs_funcall_exit_return
  /\ (3 < 0 \/ (1 < 3 /\ 1 <> emacs_variadic_function))
  /\ bind_func "f" 3 1 fn_getenv "doc" load_state
     = Some (tt, set_pending (emacs_funcall_exit_signal (Sym "invalid-arity")
                                (Cons (Int 3) (Int 1))) load_state)
  /\ bind_func "nil" 1 1 fn_getenv "doc" load_state
     = Some (tt, set_pending (emacs_funcall_exit_signal (Sym "setting-constant")
                                (Cons Qnil Qnil)) load_state)
  /\ bind_func "f" 1 (-2) fn_getenv "doc" load_state
     = Some (tt, set_fcells (<["f" := Func 1 (-2) fn_getenv "doc"]> (fcells load_state))
                   load_state)
  /\ pending busy_state <> emacs_funcall_exit_return
  /\ bind_func "f" 1 1 fn_getenv "doc" busy_state = Some (tt, busy_state).
Proof.
  split; [reflexivity |].
  split; [right; split; [lia | discriminate] |].
  split; [apply (proj1 (bind_func_failures "f" 3 1 fn_getenv "doc" load_state));
          [reflexivity | right; split; [lia | discriminate]] |].
  split; [apply (proj1 (proj2 (bind_func_failures "f" 1 1 fn_getenv "doc" load_state)));
          [reflexivity | lia | left; lia] |].
  split; [apply (proj1 (proj2 (proj2 (bind_func_failures
                                         "f" 1 (-2) fn_getenv "doc" load_state))));
          [reflexivity | discriminate | lia | reflexivity] |].
  split; [discriminate |].
  apply (proj2 (proj2 (proj2 (bind_func_failures "f" 1 1 fn_getenv "doc" busy_state)))).
  discriminate.
Defined.

(** ** The type tests and constructors *)

Lemma type_test_quiet (nm : string) (o : Lisp_Object) (s : state) :
  quiet s ->
  (t <- type_of (Some o) ;; i <- intern nm ;; eq t i) s
  = Some (EQ (Ftype_of o) (Sym nm), s).
Proof.
  intros Q. unfold bind, type_of, eq, MODULE_FUNCTION_BEGIN.
  rewrite (quiet_no_exit_pending _ Q). simpl.
  unfold intern, MODULE_FUNCTION_BEGIN. rewrite (quiet_no_exit_pending _ Q).
  simpl. now rewrite (quiet_no_exit_pending _ Q).
Qed.

Lemma LISP_IS_INTEGER_quiet (o : Lisp_Object) (s : state) :
  quiet s ->
  LISP_IS_INTEGER (Some o) s = Some (match o with Int _ => true | _ => false end, s).
Proof.
  intros Q. unfold LISP_IS_INTEGER. rewrite (type_test_quiet "integer" o s Q).
  destruct o; reflexivity.
Qed.

Lemma LISP_IS_FLOAT_quiet (o : Lisp_Object) (s : state) :
  quiet s ->
  LISP_IS_FLOAT (Some o) s = Some (match o with Float _ => true | _ => false end, s).
Proof.
  intros Q. unfold LISP_IS_FLOAT. rewrite (type_test_quiet "float" o s Q).
  destruct o; reflexivity.
Qed.

Lemma LISP_IS_NIL_quiet (o : Lisp_Object) (s : state) :
  quiet s -> LISP_IS_NIL (Some o) s = Some (bool_decide (o = Sym "nil"), s).
Proof.
  intros Q. unfold LISP_IS_NIL, bind, is_not_nil, MODULE_FUNCTION_BEGIN.
  rewrite (quiet_no_exit_pending _ Q). unfold value_to_lisp, pure, Qnil.
  unfold bind. cbv beta iota. now rewrite negb_involutive.
Qed.

(** X18.  With no exit pending, the type tests of the file tell the objects apart:
    [LISP_IS_STRING], [LISP_IS_INTEGER] and [LISP_IS_FLOAT] hold for strings,
    integers and floats and for nothing else, so no object passes two of
    them, and [LISP_IS_NIL] holds for the symbol [nil] alone.  None of them
    changes the state. *)
Theorem type_tests_tell_objects_apart (o : Lisp_Object) (s : state) :
  pending s = emacs_funcall_exit_return ->
  LISP_IS_STRING (Some o) s = Some (match o with Str _ => true | _ => false end, s)
  /\ LISP_IS_INTEGER (Some o) s = Some (match o with Int _ => true | _ => false end, s)
  /\ LISP_IS_FLOAT (Some o) s = Some (match o with Float _ => true | _ => false end, s)
  /\ LISP_IS_NIL (Some o) s = Some (bool_decide (o = Sym "nil"), s).
Proof.
  intros Q. split; [| split; [| split]].
  - rewrite (LISP_IS_STRING_quiet o s Q). destruct o; reflexivity.
  - apply LISP_IS_INTEGER_quiet, Q.
  - apply LISP_IS_FLOAT_quiet, Q.
  - apply LISP_IS_NIL_quiet, Q.
Qed.

Lemma type_tests_tell_objects_apart_witness :
  pending home_state = emacs_funcall_exit_return
  /\ LISP_IS_STRING (Some (Int 3)) home_state = Some (false, home_state)
  /\ LISP_IS_INTEGER (Some (Int 3)) home_state = Some (true, home_state)
  /\ LISP_IS_FLOAT (Some (Int 3)) home_state = Some (false, home_state)
  /\ LISP_IS_NIL (Some (Int 3)) home_state = Some (false, home_state).
Proof.
  split; [reflexivity |].
  exact (type_tests_tell_objects_apart (Int 3) home_state eq_refl).
Defined.

(** X19.  With no exit pending, what a constructor macro makes passes the matching
    test: [LISP_INT] makes an integer, [LISP_FLOAT] a float, [LISP_STR] a
    string, [LISP_NIL] is nil and [LISP_T] is not. *)
Theorem constructors_pass_their_tests (x d : Z) (str : string) (s : state) :
  pending s = emacs_funcall_exit_return ->
  (v <- LISP_INT x ;; LISP_IS_INTEGER v) s = Some (true, s)
  /\ (v <- LISP_FLOAT d ;; LISP_IS_FLOAT v) s = Some (true, s)
  /\ (v <- LISP_STR str ;; LISP_IS_STRING v) s = Some (true, s)
  /\ (v <- LISP_NIL ;; LISP_IS_NIL v) s = Some (true, s)
  /\ (v <- LISP_T ;; LISP_IS_NIL v) s = Some (false, s).
Proof.
  intros Q.
  assert (I : make_integer x s = Some (Some (Int x), s))
    by (unfold make_integer, MODULE_FUNCTION_BEGIN; now rewrite (quiet_no_exit_pending _ Q)).
  assert (F : make_float d s = Some (Some (Float d), s))
    by (unfold make_float, MODULE_FUNCTION_BEGIN; now rewrite (quiet_no_exit_pending _ Q)).
  pose proof (LISP_IS_INTEGER_quiet (Int x) s Q) as TI.
  pose proof (LISP_IS_FLOAT_quiet (Float d) s Q) as TF.
  pose proof (LISP_IS_STRING_quiet (Str (strtrunc str)) s Q) as TS.
  pose proof (LISP_IS_NIL_quiet (Sym "nil") s Q) as TN.
  pose proof (LISP_IS_NIL_quiet (Sym "t") s Q) as TT.
  split; [| split; [| split; [| split]]].
  - unfold LISP_INT. now rewrite (bind_Some _ _ _ _ _ I).
  - unfold LISP_FLOAT. now rewrite (bind_Some _ _ _ _ _ F).
  - now rewrite (bind_Some _ _ _ _ _ (LISP_STR_quiet str s Q)).
  - unfold LISP_NIL. now rewrite (bind_Some _ _ _ _ _ (intern_quiet "nil" s Q)).
  - unfold LISP_T. now rewrite (bind_Some _ _ _ _ _ (intern_quiet "t" s Q)).
Qed.

Lemma constructors_pass_their_tests_witness :
  pending home_state = emacs_funcall_exit_return
  /\ (v <- LISP_INT 7 ;; LISP_IS_INTEGER v) home_state = Some (true, home_state)
  /\ (v <- LISP_FLOAT 0 ;; LISP_IS_FLOAT v) home_state = Some (true, home_state)
  /\ (v <- LISP_STR "abc" ;; LISP_IS_STRING v) home_state = Some (true, home_state)
  /\ (v <- LISP_NIL ;; LISP_IS_NIL v) home_state = Some (true, home_state)
  /\ (v <- LISP_T ;; LISP_IS_NIL v) home_state = Some (false, home_state).
Proof.
  split; [reflexivity |].
  exact (constructors_pass_their_tests 7 0 "abc" home_state eq_refl).
Defined.

(** X20.  While an exit is pending the macros answer for the host's failure
    values, not for the objects: the three type tests are false for every
    value, [LISP_IS_NIL] is true for every value, the constructors and
    [LISP_NIL] give the null handle, and [NON_LOCAL_EXIT_CHECK] makes its
    function return that null handle.  With no exit pending
    [NON_LOCAL_EXIT_CHECK] lets the function go on. *)
Theorem macros_while_exit_pending (v : emacs_value) (x : Z) (str : string) (s : state) :
  (pending s <> emacs_funcall_exit_return ->
   LISP_IS_STRING v s = Some (false, s)
   /\ LISP_IS_INTEGER v s = Some (false, s)
   /\ LISP_IS_FLOAT v s = Some (false, s)
   /\ LISP_IS_NIL v s = Some (true, s)
   /\ LISP_INT x s = Some (None, s)
   /\ LISP_FLOAT x s = Some (None, s)
   /\ LISP_STR str s = Some (None, s)
   /\ LISP_NIL s = Some (None, s)
   /\ NON_LOCAL_EXIT_CHECK s = Some (Some None, s))
  /\ (pending s = emacs_funcall_exit_return -> NON_LOCAL_EXIT_CHECK s = Some (None, s)).
Proof.
  split.
  - intros Q. pose proof (no_exit_pending_false _ Q) as P.
    assert (T : forall nm, (t <- type_of v ;; i <- intern nm ;; eq t i) s = Some (false, s)).
    { intros nm. unfold bind, type_of, eq, intern, MODULE_FUNCTION_BEGIN.
      rewrite P. cbv beta iota. rewrite P. cbv beta iota. now rewrite P. }
    repeat split.
    + apply T.
    + apply T.
    + apply T.
    + unfold LISP_IS_NIL, bind, is_not_nil, MODULE_FUNCTION_BEGIN. now rewrite P.
    + unfold LISP_INT, make_integer, MODULE_FUNCTION_BEGIN. now rewrite P.
    + unfold LISP_FLOAT, make_float, MODULE_FUNCTION_BEGIN. now rewrite P.
    + unfold LISP_STR, make_string, MODULE_FUNCTION_BEGIN. now rewrite P.
    + apply (intern_pending "nil" s Q).
    + unfold NON_LOCAL_EXIT_CHECK, bind, non_local_exit_check. cbv beta iota.
      case_decide; [| contradiction].
      unfold LISP_NIL. now rewrite (intern_pending "nil" s Q).
  - intros Q. unfold NON_LOCAL_EXIT_CHECK, bind, non_local_exit_check. cbv beta iota.
    case_decide; [contradiction | reflexivity].
Qed.

Lemma macros_while_exit_pending_witness :
  pending busy_state <> emacs_funcall_exit_return
  /\ LISP_IS_STRING (Some (Str "abc")) busy_state = Some (false, busy_state)
  /\ LISP_IS_NIL (Some (Int 3)) busy_state = Some (true, busy_state)
  /\ NON_LOCAL_EXIT_CHECK busy_state = Some (Some None, busy_state)
  /\ pending home_state = emacs_funcall_exit_return
  /\ NON_LOCAL_EXIT_CHECK home_state = Some (None, home_state).
Proof.
  pose proof (proj1 (macros_while_exit_pending (Some (Str "abc")) 0 "" busy_state)
                ltac:(discriminate)) as (S & _).
  pose proof (proj1 (macros_while_exit_pending (Some (Int 3)) 0 "" busy_state)
                ltac:(discriminate)) as (_ & _ & _ & N & _ & _ & _ & _ & C).
  split; [discriminate |]. split; [exact S |]. split; [exact N |]. split; [exact C |].
  split; [reflexivity |].
  exact (proj2 (macros_while_exit_pending None 0 "" home_state) eq_refl).
Defined.
